(** * FixedArray: a shallow embedding of [arrays/array.c]

    The C translation unit implements a fixed-size, type-erased array
    ([Array] in [array.h]) with five entry points: [array_init],
    [array_free], [array_set], [array_get] and [array_len].

    The embedding keeps the shape of the C code:

    - [size_t] values are integers in [Z]; the platform constant
      [SIZE_MAX] is the one of an LP64 target, and the only arithmetic
      the code performs on [size_t] ([SIZE_MAX / elem_size] and
      [index * elem_size]) is written with its wrap-around;
    - the heap is a finite map from block identifiers to byte lists,
      pointers are [NULL] or a block with a byte offset;
    - the [Array] object that [self] designates and the heap form the
      explicitly threaded state ([world]); a null [self] is the absent
      handle [None];
    - caller-side buffers ([value_in], [value_out], [length]) are passed
      as optional values, [None] standing for a null (or otherwise not
      dereferenceable) pointer; they are the caller's own objects, disjoint
      from the storage of the array;
    - undefined behaviour of C (division by zero, access through an
      invalid pointer, [free] of a pointer that is not live) is the
      outcome [Undefined], distinct from every returned status. *)

From Stdlib Require Import ZArith Lia.
From Stdlib Require Import Init.Byte Strings.Byte.
From stdpp Require Import base option list gmap fin_maps.

#[local] Open Scope Z_scope.

(** ** Status codes ([status_t] of [array.h]) *)

Inductive status_t : Set :=
| S_OK
| S_ERR_SELF_IS_NULL
| S_ERR_RETURN_PARAMS_IS_NULL
| S_ERR_OUT_OF_MEMORY
| S_ERR_OUT_OF_RANGE
| S_ERR_ELEMENT_SIZE_MISMATCH.

#[global] Instance status_t_eq_dec : EqDecision status_t.
Proof. solve_decision. Defined.

(** The numeric values given to the enumerators. *)
Definition status_code (s : status_t) : Z :=
  match s with
  | S_OK => 0
  | S_ERR_SELF_IS_NULL => 1
  | S_ERR_RETURN_PARAMS_IS_NULL => 2
  | S_ERR_OUT_OF_MEMORY => 4
  | S_ERR_OUT_OF_RANGE => 5
  | S_ERR_ELEMENT_SIZE_MISMATCH => 6
  end.

(** ** Machine integers *)

Definition size_bits : Z := 64.
Definition SIZE_MAX : Z := 2 ^ size_bits - 1.

(** Reduction of an integer to the range of [size_t]. *)
Definition size_wrap (z : Z) : Z := z mod 2 ^ size_bits.

Definition in_size_t (z : Z) : Prop := 0 <= z <= SIZE_MAX.

(** ** Memory *)

Abbreviation block := positive (only parsing).
Abbreviation bytes := (list byte) (only parsing).

Inductive ptr : Set :=
| NULL
| Ptr (b : block) (off : Z).

#[global] Instance ptr_eq_dec : EqDecision ptr.
Proof. solve_decision. Defined.

(** The [Array] struct of [array.h]. *)
Record Array : Set := mkArray {
  head : ptr;
  length : Z;
  elem_size : Z
}.

(** The state the functions run in: the object behind [self] and the
    allocated blocks. *)
Record world : Type := mkWorld {
  inst : Array;
  heap : gmap block bytes
}.

(** A handle is the [self] argument: [None] is the null pointer, [Some tt]
    designates the instance of the world. *)
Definition handle := option unit.
Definition present : handle := Some tt.
Definition absent : handle := None.

(** ** Outcomes and the state monad of the embedding *)

Inductive outcome (A : Type) : Type :=
| Returns (a : A) (w : world)
| Undefined.
Arguments Returns {A} a w.
Arguments Undefined {A}.

Definition M (A : Type) : Type := world -> outcome A.

#[global] Instance M_ret : MRet M := fun A a w => Returns a w.
#[global] Instance M_bind : MBind M := fun A B k m w =>
  match m w with
  | Returns a w' => k a w'
  | Undefined => Undefined
  end.

Definition ret {A} (a : A) : M A := mret a.
Definition undef {A} : M A := fun _ => Undefined.

(** Field reads and writes through [self]. *)
Definition get_head : M ptr := fun w => Returns (head (inst w)) w.
Definition get_length : M Z := fun w => Returns (length (inst w)) w.
Definition get_elem_size : M Z := fun w => Returns (elem_size (inst w)) w.

Definition set_head (p : ptr) : M unit := fun w =>
  Returns tt (mkWorld (mkArray p (length (inst w)) (elem_size (inst w))) (heap w)).
Definition set_length (n : Z) : M unit := fun w =>
  Returns tt (mkWorld (mkArray (head (inst w)) n (elem_size (inst w))) (heap w)).
Definition set_elem_size (n : Z) : M unit := fun w =>
  Returns tt (mkWorld (mkArray (head (inst w)) (length (inst w)) n) (heap w)).

(** The status an outcome carries, if any. *)
Definition status_of {A} (o : outcome (status_t * A)) : option status_t :=
  match o with
  | Returns (s, _) _ => Some s
  | Undefined => None
  end.

Definition world_of {A} (o : outcome A) : option world :=
  match o with
  | Returns _ w => Some w
  | Undefined => None
  end.

(** ** The C library functions the code calls *)

(** Unsigned division; dividing by zero is undefined. *)
Definition size_div (a b : Z) : M Z :=
  if b =? 0 then undef else ret (a / b).

Definition zeros (n : Z) : bytes := replicate (Z.to_nat n) x00.

Definition fresh_block (h : gmap block bytes) : block := fresh (dom h).

(** [calloc(nmemb, size)]: whether the allocator finds memory is not
    decided by the program, so it is the argument [ok].  A successful call
    returns a block that was not live, filled with zero bytes. *)
Definition calloc (ok : bool) (nmemb size : Z) : M ptr := fun w =>
  if ok && (nmemb * size <=? SIZE_MAX) then
    let b := fresh_block (heap w) in
    Returns (Ptr b 0) (mkWorld (inst w) (<[b := zeros (nmemb * size)]> (heap w)))
  else Returns NULL w.

(** [free(p)]: nothing for a null pointer, releases a live block given its
    base address, undefined otherwise. *)
Definition free (p : ptr) : M unit := fun w =>
  match p with
  | NULL => Returns tt w
  | Ptr b off =>
      match heap w !! b with
      | Some _ => if off =? 0 then Returns tt (mkWorld (inst w) (delete b (heap w)))
                  else Undefined
      | None => Undefined
      end
  end.

(** [(char * )p + off]. *)
Definition ptr_add (p : ptr) (off : Z) : M ptr :=
  match p with
  | NULL => undef
  | Ptr b o => ret (Ptr b (o + off))
  end.

(** Reading [n] bytes at offset [off] of a byte list, and overwriting the
    bytes at [off] by [v]; both need the range to lie inside the list. *)
Definition read_at (bs : bytes) (off n : Z) : option bytes :=
  if (0 <=? off) && (0 <=? n) && (off + n <=? Z.of_nat (List.length bs))
  then Some (take (Z.to_nat n) (drop (Z.to_nat off) bs))
  else None.

Definition write_at (bs : bytes) (off : Z) (v : bytes) : option bytes :=
  if (0 <=? off) && (off + Z.of_nat (List.length v) <=? Z.of_nat (List.length bs))
  then Some (take (Z.to_nat off) bs ++ v ++ drop (Z.to_nat off + List.length v) bs)
  else None.

(** [memcpy(dst, src, n)] with the destination in the heap and the source a
    caller buffer. *)
Definition memcpy_to_heap (dst : ptr) (src : option bytes) (n : Z) : M unit := fun w =>
  match dst, src with
  | Ptr b off, Some s =>
      match heap w !! b, read_at s 0 n with
      | Some bs, Some v =>
          match write_at bs off v with
          | Some bs' => Returns tt (mkWorld (inst w) (<[b := bs']> (heap w)))
          | None => Undefined
          end
      | _, _ => Undefined
      end
  | _, _ => Undefined
  end.

(** [memcpy(dst, src, n)] with the source in the heap and the destination a
    caller buffer; the result is the content of that buffer afterwards. *)
Definition memcpy_from_heap (dst : bytes) (src : ptr) (n : Z) : M bytes := fun w =>
  match src with
  | Ptr b off =>
      match heap w !! b with
      | Some bs =>
          match read_at bs off n with
          | Some v =>
              match write_at dst 0 v with
              | Some dst' => Returns dst' w
              | None => Undefined
              end
          | None => Undefined
          end
      | None => Undefined
      end
  | NULL => Undefined
  end.

(** ** The functions of [array.c] *)

Definition array_init (self : handle) (length elem_size : Z) (alloc_ok : bool)
  : M (status_t * unit) :=
  match self with
  | None => ret (S_ERR_SELF_IS_NULL, tt)
  | Some _ =>
      max_length ← size_div SIZE_MAX elem_size;
      if (length =? 0) || (length >? max_length) then ret (S_ERR_OUT_OF_RANGE, tt)
      else
        p ← calloc alloc_ok length elem_size;
        set_head p;;
        match p with
        | NULL => ret (S_ERR_OUT_OF_MEMORY, tt)
        | Ptr _ _ =>
            set_length length;;
            set_elem_size elem_size;;
            ret (S_OK, tt)
        end
  end.

Definition array_free (self : handle) : M (status_t * unit) :=
  match self with
  | None => ret (S_ERR_SELF_IS_NULL, tt)
  | Some _ =>
      p ← get_head;
      free p;;
      set_head NULL;;
      set_length 0;;
      set_elem_size 0;;
      ret (S_OK, tt)
  end.

Definition array_set (self : handle) (index : Z) (value_in : option bytes)
    (value_size : Z) : M (status_t * unit) :=
  match self with
  | None => ret (S_ERR_SELF_IS_NULL, tt)
  | Some _ =>
      len ← get_length;
      if index >=? len then ret (S_ERR_OUT_OF_RANGE, tt)
      else
        es ← get_elem_size;
        if negb (es =? value_size) then ret (S_ERR_ELEMENT_SIZE_MISMATCH, tt)
        else
          hd ← get_head;
          dst ← ptr_add hd (size_wrap (index * es));
          memcpy_to_heap dst value_in value_size;;
          ret (S_OK, tt)
  end.

Definition array_get (self : handle) (index : Z) (value_out : option bytes)
    (value_size : Z) : M (status_t * option bytes) :=
  match self with
  | None => ret (S_ERR_SELF_IS_NULL, value_out)
  | Some _ =>
      match value_out with
      | None => ret (S_ERR_RETURN_PARAMS_IS_NULL, value_out)
      | Some out =>
          len ← get_length;
          if index >=? len then ret (S_ERR_OUT_OF_RANGE, value_out)
          else
            es ← get_elem_size;
            if negb (es =? value_size) then ret (S_ERR_ELEMENT_SIZE_MISMATCH, value_out)
            else
              hd ← get_head;
              src ← ptr_add hd (size_wrap (index * es));
              out' ← memcpy_from_heap out src value_size;
              ret (S_OK, Some out')
      end
  end.

Definition array_len (self : handle) (length_out : option Z)
  : M (status_t * option Z) :=
  match self with
  | None => ret (S_ERR_SELF_IS_NULL, length_out)
  | Some _ =>
      match length_out with
      | None => ret (S_ERR_RETURN_PARAMS_IS_NULL, length_out)
      | Some _ =>
          len ← get_length;
          ret (S_OK, Some len)
      end
  end.

(** ** Concrete worlds used by the examples *)

(** An instance in the empty state, no block allocated. *)
Definition empty_world : world := mkWorld (mkArray NULL 0 0) ∅.

Definition run_world {A} (m : M A) (w : world) : world :=
  match m w with
  | Returns _ w' => w'
  | Undefined => w
  end.

(** An instance as a test declares it ([Array arr;] on the stack): the
    fields hold whatever was there, here a pointer to no live block. *)
Definition uninitialized_world : world := mkWorld (mkArray (Ptr 7%positive 0) 99 13) ∅.

(** [array_init(&arr, 3, 4)] on the empty instance. *)
Definition world_3x4 : world := run_world (array_init present 3 4 true) empty_world.

(** [world_3x4] after the [int] 42 was written at index 1. *)
Definition world_3x4_written : world :=
  run_world (array_set present 1 (Some [x2a; x00; x00; x00]) 4) world_3x4.

(** The same call when the allocator fails: the instance of the resulting
    world was allocated and is not any more (see [init_on_allocated]). *)
Definition world_3x4_reinit_oom : world :=
  run_world (array_init present 5 4 false) world_3x4.

(** ** The spec's checking order, written from its words

    "absent handle -> absent output -> range -> size": the error of the
    first violated precondition, or none. *)
Definition first_violation (absent_handle absent_output bad_range bad_size : bool)
  : option status_t :=
  if absent_handle then Some S_ERR_SELF_IS_NULL
  else if absent_output then Some S_ERR_RETURN_PARAMS_IS_NULL
  else if bad_range then Some S_ERR_OUT_OF_RANGE
  else if bad_size then Some S_ERR_ELEMENT_SIZE_MISMATCH
  else None.

Definition is_absent {A} (o : option A) : bool :=
  match o with None => true | Some _ => false end.

(** The statuses that report a violated precondition. *)
Definition precondition_error (s : status_t) : bool :=
  match s with
  | S_ERR_SELF_IS_NULL | S_ERR_RETURN_PARAMS_IS_NULL
  | S_ERR_OUT_OF_RANGE | S_ERR_ELEMENT_SIZE_MISMATCH => true
  | S_OK | S_ERR_OUT_OF_MEMORY => false
  end.

(** An outcome follows the verdict [fv] of the checking order when it
    returns the error of the first violated precondition (and the world as
    it was), and, with no precondition violated, returns none of the
    precondition errors. *)
Definition follows_order {A} (o : outcome (status_t * A)) (w : world)
    (fv : option status_t) : Prop :=
  match fv with
  | Some e => status_of o = Some e ∧ world_of o = Some w
  | None => ∀ e, status_of o = Some e → precondition_error e = false
  end.

(** [array_init] returns for every handle, length, allocator behaviour and
    world once the element size is [S]. *)
Definition init_total_at (S : Z) : Prop :=
  ∀ self L ok w, ∃ st w', array_init self L S ok w = Returns (st, tt) w'.

(** ** States of an instance *)

(** The storage handle is null or the base of a live block: the two
    macro-states (empty, allocated) an instance is meant to be in. *)
Definition storage_valid (w : world) : Prop :=
  head (inst w) = NULL ∨ ∃ b, head (inst w) = Ptr b 0 ∧ is_Some (heap w !! b).

(** An allocated instance of [L] elements of [S] bytes: its storage is a
    live block of exactly [L * S] bytes, and that product is a [size_t]. *)
Definition allocated (L S : Z) (w : world) : Prop :=
  ∃ b bs,
    inst w = mkArray (Ptr b 0) L S ∧
    heap w !! b = Some bs ∧
    Z.of_nat (List.length bs) = L * S ∧
    0 < L ∧ 0 < S ∧ L * S <= SIZE_MAX.

(** The worlds reached by a successful [array_init (L, S)] followed by any
    number of successful [array_set] calls. *)
Inductive initialized (L S : Z) : world → Prop :=
| initialized_init ok w0 w :
    array_init present L S ok w0 = Returns (S_OK, tt) w →
    initialized L S w
| initialized_set w i v vs w' :
    initialized L S w →
    array_set present i v vs w = Returns (S_OK, tt) w' →
    initialized L S w'.

(** The worlds reached from [w0] by a successful [array_init (L, S)]
    followed by any number of [array_set] calls that return: the life of
    an array, with the world it started in. *)
Inductive initialized_from (w0 : world) (L S : Z) : world → Prop :=
| initialized_from_init ok w :
    array_init present L S ok w0 = Returns (S_OK, tt) w →
    initialized_from w0 L S w
| initialized_from_set w i v vs st w' :
    initialized_from w0 L S w →
    array_set present i v vs w = Returns (st, tt) w' →
    initialized_from w0 L S w'.

(** The array seen as a function from indices to elements: the instance
    designates block [b], which holds [L] elements of [S] bytes, element
    [k] being [f k], and [h0] is the rest of the heap. *)
Definition represents (h0 : gmap block bytes) (b : block) (L S : Z)
    (f : Z → bytes) (w : world) : Prop :=
  inst w = mkArray (Ptr b 0) L S ∧
  h0 !! b = None ∧
  0 < L ∧ 0 < S ∧ L * S <= SIZE_MAX ∧
  ∃ bs, heap w = <[b := bs]> h0 ∧
        Z.of_nat (List.length bs) = L * S ∧
        ∀ k, 0 <= k < L → read_at bs (k * S) S = Some (f k).

(** [f] with the element at [i] replaced by [v]. *)
Definition update (f : Z → bytes) (i : Z) (v : bytes) : Z → bytes :=
  fun k => if decide (k = i) then v else f k.

(** ** The test programs of [tests/test_array.c]

    A test returns [PASS] at its end and [FAIL] at the first assertion
    that does not hold.  The [printf] calls of the tests are left out.  An
    [int] is 4 bytes, two's complement, least significant byte first; a
    [Vec3] is its three [int] fields in order, 12 bytes. *)

Inductive test_result : Set := PASS | FAIL.

Definition ASSERT (c : bool) (k : M test_result) : M test_result :=
  if c then k else mret FAIL.

Definition ASSERT_EQ {A} `{EqDecision A} (x y : A) (k : M test_result)
  : M test_result :=
  ASSERT (bool_decide (x = y)) k.

(** [for (i = start; ...; i++) body], [n] iterations, the body running
    the rest of the test unless one of its assertions fails. *)
Fixpoint for_loop (n : nat) (i : Z)
    (body : Z → M test_result → M test_result) (k : M test_result)
  : M test_result :=
  match n with
  | O => k
  | S n' => body i (for_loop n' (i + 1) body k)
  end.

Definition int_elem_size : Z := 4.

Definition byte_of_Z (z : Z) : byte :=
  default x00 (Byte.of_N (Z.to_N (z mod 256))).
Definition Z_of_byte (b : byte) : Z := Z.of_N (Byte.to_N b).

Definition encode_int (z : Z) : bytes :=
  [byte_of_Z z; byte_of_Z (z / 2 ^ 8); byte_of_Z (z / 2 ^ 16); byte_of_Z (z / 2 ^ 24)].

Definition decode_int (bs : bytes) : Z :=
  match bs with
  | [b0; b1; b2; b3] =>
      let u := Z_of_byte b0 + 2 ^ 8 * Z_of_byte b1 + 2 ^ 16 * Z_of_byte b2
               + 2 ^ 24 * Z_of_byte b3 in
      if u <? 2 ^ 31 then u else u - 2 ^ 32
  | _ => 0
  end.

(** The value of an [int] variable whose address was passed as output. *)
Definition int_val (o : option bytes) : Z :=
  match o with
  | Some bs => decode_int bs
  | None => 0
  end.

Record Vec3 : Set := mkVec3 { x : Z; y : Z; z : Z }.

Definition encode_Vec3 (v : Vec3) : bytes :=
  encode_int (x v) ++ encode_int (y v) ++ encode_int (z v).

Definition decode_Vec3 (o : option bytes) : Vec3 :=
  match o with
  | Some bs => mkVec3 (decode_int (take 4 bs))
                      (decode_int (take 4 (drop 4 bs)))
                      (decode_int (take 4 (drop 8 bs)))
  | None => mkVec3 0 0 0
  end.

Definition sizeof_Vec3 : Z := 12.

Definition test_array_init_and_free (alloc_ok : bool) : M test_result :=
  r ← array_init present 10 int_elem_size alloc_ok;
  ASSERT_EQ r.1 S_OK $
  hd ← get_head;
  ASSERT (negb (bool_decide (hd = NULL))) $
  len ← get_length;
  ASSERT_EQ len 10 $
  r ← array_free present;
  ASSERT_EQ r.1 S_OK $
  hd ← get_head;
  ASSERT_EQ hd NULL $
  len ← get_length;
  ASSERT_EQ len 0 $
  mret PASS.

Definition test_array_zero_values (alloc_ok : bool) : M test_result :=
  r ← array_init present 10 int_elem_size alloc_ok;
  ASSERT_EQ r.1 S_OK $
  for_loop 10 0
    (fun i k =>
       r ← array_get present i (Some (encode_int (-1))) int_elem_size;
       ASSERT_EQ r.1 S_OK $
       ASSERT_EQ (int_val r.2) 0 k) $
  r ← array_free present;
  ASSERT_EQ r.1 S_OK $
  hd ← get_head;
  ASSERT_EQ hd NULL $
  len ← get_length;
  ASSERT_EQ len 0 $
  mret PASS.

Definition test_array_init_invalid_inputs (alloc_ok : bool) : M test_result :=
  r ← array_init absent 10 int_elem_size alloc_ok;
  ASSERT_EQ r.1 S_ERR_SELF_IS_NULL $
  r ← array_init present 0 int_elem_size alloc_ok;
  ASSERT_EQ r.1 S_ERR_OUT_OF_RANGE $
  mret PASS.

Definition test_array_set_and_get (alloc_ok : bool) : M test_result :=
  _ ← array_init present 5 int_elem_size alloc_ok;
  let val := encode_int 42 in
  r ← array_set present 2 (Some val) int_elem_size;
  ASSERT_EQ r.1 S_OK $
  r ← array_get present 2 (Some (encode_int 0)) int_elem_size;
  ASSERT_EQ r.1 S_OK $
  ASSERT_EQ (int_val r.2) (decode_int val) $
  _ ← array_free present;
  mret PASS.

(** [(void * )1], the source given to [array_set] here, is not a pointer
    to an object: [None]. *)
Definition test_array_bounds_check (alloc_ok : bool) : M test_result :=
  _ ← array_init present 3 int_elem_size alloc_ok;
  r ← array_set present 3 None int_elem_size;
  ASSERT_EQ r.1 S_ERR_OUT_OF_RANGE $
  r ← array_get present 3 None int_elem_size;
  ASSERT_EQ r.1 S_ERR_RETURN_PARAMS_IS_NULL $
  r ← array_get absent 1 None int_elem_size;
  ASSERT_EQ r.1 S_ERR_SELF_IS_NULL $
  _ ← array_free present;
  mret PASS.

Definition test_array_len (alloc_ok : bool) : M test_result :=
  _ ← array_init present 7 int_elem_size alloc_ok;
  r ← array_len present (Some 0);
  ASSERT_EQ r.1 S_OK $
  ASSERT_EQ r.2 (Some 7) $
  let len := r.2 in
  r ← array_len absent len;
  ASSERT_EQ r.1 S_ERR_SELF_IS_NULL $
  r ← array_len present None;
  ASSERT_EQ r.1 S_ERR_RETURN_PARAMS_IS_NULL $
  _ ← array_free present;
  mret PASS.

Definition test_array_int_simulation (alloc_ok : bool) : M test_result :=
  let length := 100 in
  r ← array_init present length int_elem_size alloc_ok;
  ASSERT_EQ r.1 S_OK $
  for_loop (Z.to_nat length) 0
    (fun i k =>
       let val := encode_int (i * 2) in
       r ← array_set present i (Some val) int_elem_size;
       ASSERT_EQ r.1 S_OK k) $
  for_loop (Z.to_nat length) 0
    (fun i k =>
       r ← array_get present i (Some (encode_int 0)) int_elem_size;
       ASSERT_EQ r.1 S_OK $
       ASSERT_EQ (int_val r.2) (i * 2) k) $
  for_loop 10 10
    (fun i k =>
       r ← array_get present i (Some (encode_int 0)) int_elem_size;
       ASSERT_EQ r.1 S_OK $
       let val := encode_int (int_val r.2 + 1) in
       r ← array_set present i (Some val) int_elem_size;
       ASSERT_EQ r.1 S_OK k) $
  for_loop 10 10
    (fun i k =>
       r ← array_get present i (Some (encode_int 0)) int_elem_size;
       ASSERT_EQ r.1 S_OK $
       ASSERT_EQ (int_val r.2) (i * 2 + 1) k) $
  _ ← array_free present;
  mret PASS.

(** The destinations [a2], [b2], [c2] are declared without a value: their
    initial bytes are the arguments. *)
Definition test_array_struct_simulation (alloc_ok : bool) (a2 b2 c2 : bytes)
  : M test_result :=
  let a := mkVec3 1 2 3 in
  let b := mkVec3 4 5 6 in
  let c := mkVec3 7 8 9 in
  let length := 3 in
  _ ← array_init present length sizeof_Vec3 alloc_ok;
  r ← array_set present 0 (Some (encode_Vec3 a)) sizeof_Vec3;
  ASSERT_EQ r.1 S_OK $
  r ← array_set present 1 (Some (encode_Vec3 b)) sizeof_Vec3;
  ASSERT_EQ r.1 S_OK $
  r ← array_set present 2 (Some (encode_Vec3 c)) sizeof_Vec3;
  ASSERT_EQ r.1 S_OK $
  ra ← array_get present 0 (Some a2) sizeof_Vec3;
  ASSERT_EQ ra.1 S_OK $
  rb ← array_get present 1 (Some b2) sizeof_Vec3;
  ASSERT_EQ rb.1 S_OK $
  rc ← array_get present 2 (Some c2) sizeof_Vec3;
  ASSERT_EQ rc.1 S_OK $
  let a2 := decode_Vec3 ra.2 in
  let b2 := decode_Vec3 rb.2 in
  let c2 := decode_Vec3 rc.2 in
  ASSERT_EQ (x a) (x a2) $ ASSERT_EQ (y a) (y a2) $ ASSERT_EQ (z a) (z a2) $
  ASSERT_EQ (x b) (x b2) $ ASSERT_EQ (y b) (y b2) $ ASSERT_EQ (z b) (z b2) $
  ASSERT_EQ (x c) (x c2) $ ASSERT_EQ (y c) (y c2) $ ASSERT_EQ (z c) (z c2) $
  _ ← array_free present;
  mret PASS.

(** [RUN_TEST] runs a test and goes on with the next whatever the result;
    the suite here yields [PASS] when every test did. *)
Definition RUN_TEST (t : M test_result) (k : M test_result) : M test_result :=
  r ← t;
  r' ← k;
  mret (match r with PASS => r' | FAIL => FAIL end).

Definition array_tests (alloc_ok : bool) : M test_result :=
  RUN_TEST (test_array_init_and_free alloc_ok) $
  RUN_TEST (test_array_init_invalid_inputs alloc_ok) $
  RUN_TEST (test_array_set_and_get alloc_ok) $
  RUN_TEST (test_array_bounds_check alloc_ok) $
  RUN_TEST (test_array_len alloc_ok) $
  RUN_TEST (test_array_zero_values alloc_ok) $
  mret PASS.

(** * Proofs *)

(** ** Byte ranges *)

Section byte_ranges.
Implicit Types (bs v out : bytes) (off n : Z).

Lemma write_at_Some bs off v :
  0 <= off → off + Z.of_nat (List.length v) <= Z.of_nat (List.length bs) →
  write_at bs off v =
    Some (take (Z.to_nat off) bs ++ v ++ drop (Z.to_nat off + List.length v) bs).
Proof.
  intros Hoff Hfit. unfold write_at.
  rewrite (proj2 (Z.leb_le 0 off) Hoff), (proj2 (Z.leb_le _ _) Hfit). done.
Qed.

Lemma write_at_inv bs off v bs' :
  write_at bs off v = Some bs' →
  0 <= off ∧ off + Z.of_nat (List.length v) <= Z.of_nat (List.length bs) ∧
  bs' = take (Z.to_nat off) bs ++ v ++ drop (Z.to_nat off + List.length v) bs.
Proof.
  unfold write_at. intros H.
  destruct (Z.leb_spec 0 off); [|done].
  destruct (Z.leb_spec (off + Z.of_nat (List.length v)) (Z.of_nat (List.length bs)));
    [|done].
  simpl in H. by simplify_eq.
Qed.

Lemma write_at_length bs off v bs' :
  write_at bs off v = Some bs' → List.length bs' = List.length bs.
Proof.
  intros (Hoff & Hfit & ->)%write_at_inv.
  rewrite !length_app, length_take, length_drop. lia.
Qed.

Lemma read_at_Some bs off n :
  0 <= off → 0 <= n → off + n <= Z.of_nat (List.length bs) →
  read_at bs off n = Some (take (Z.to_nat n) (drop (Z.to_nat off) bs)).
Proof.
  intros Hoff Hn Hfit. unfold read_at.
  rewrite (proj2 (Z.leb_le 0 off) Hoff), (proj2 (Z.leb_le 0 n) Hn),
    (proj2 (Z.leb_le _ _) Hfit). done.
Qed.

Lemma read_at_whole v : read_at v 0 (Z.of_nat (List.length v)) = Some v.
Proof.
  rewrite read_at_Some by lia. simpl.
  rewrite Nat2Z.id, take_ge; done.
Qed.

Lemma write_at_whole out v :
  List.length out = List.length v → write_at out 0 v = Some v.
Proof.
  intros Hlen. rewrite write_at_Some by lia. simpl.
  rewrite drop_ge by lia. by rewrite app_nil_r.
Qed.

(** What was written at [off] is what is read back from [off]. *)
Lemma read_at_write_at bs off v bs' :
  write_at bs off v = Some bs' →
  read_at bs' off (Z.of_nat (List.length v)) = Some v.
Proof.
  intros Hw. pose proof (write_at_length _ _ _ _ Hw) as Hlen.
  apply write_at_inv in Hw as (Hoff & Hfit & ->).
  rewrite read_at_Some by lia. f_equal.
  rewrite drop_app_length' by (rewrite length_take; lia).
  rewrite Nat2Z.id. apply take_app_length.
Qed.

Lemma read_at_zeros n off k :
  0 <= off → 0 <= k → off + k <= n →
  read_at (zeros n) off k = Some (zeros k).
Proof.
  intros Hoff Hk Hfit. unfold zeros.
  rewrite read_at_Some; rewrite ?length_replicate; try lia.
  rewrite drop_replicate, take_replicate. do 2 f_equal. lia.
Qed.
End byte_ranges.

(** ** Running the monad *)

#[global] Arguments SIZE_MAX : simpl never.
#[global] Arguments size_wrap : simpl never.
#[global] Arguments zeros : simpl never.

#[global] Arguments fresh_block : simpl never.

Ltac unfold_monad :=
  cbv beta iota delta
    [ret undef mret mbind M_ret M_bind
     get_head get_length get_elem_size set_head set_length set_elem_size
     size_div ptr_add].

Ltac simpl_world := cbn [inst head length elem_size heap negb andb orb].
Tactic Notation "simpl_world" "in" "*" :=
  cbn [inst head length elem_size heap negb andb orb] in *.

Ltac unfold_ops :=
  cbv beta iota delta
    [array_init array_free array_set array_get array_len present absent];
  unfold_monad.

Lemma SIZE_MAX_pos : 0 < SIZE_MAX.
Proof. reflexivity. Qed.

Lemma size_wrap_small z : 0 <= z <= SIZE_MAX → size_wrap z = z.
Proof.
  unfold size_wrap, SIZE_MAX. intros H. apply Z.mod_small. lia.
Qed.

(** The range check of [array_init] keeps the byte count in [size_t]. *)
Lemma length_check_no_overflow L S :
  0 < S → 0 < L → L <= SIZE_MAX / S → 0 < L * S <= SIZE_MAX.
Proof.
  intros HS HL Hle. pose proof (Z.mul_div_le SIZE_MAX S HS). nia.
Qed.

(** ** [array_init], case by case *)

Section init_cases.
Implicit Types (L S : Z) (w : world).

Lemma array_init_absent L S ok w :
  array_init absent L S ok w = Returns (S_ERR_SELF_IS_NULL, tt) w.
Proof. reflexivity. Qed.

Lemma array_init_zero_elem_size L ok w :
  array_init present L 0 ok w = Undefined.
Proof. reflexivity. Qed.

Lemma array_init_present L S ok w :
  S ≠ 0 →
  array_init present L S ok w =
    if (L =? 0) || (L >? SIZE_MAX / S) then Returns (S_ERR_OUT_OF_RANGE, tt) w
    else if ok && (L * S <=? SIZE_MAX) then
      Returns (S_OK, tt)
        (mkWorld (mkArray (Ptr (fresh_block (heap w)) 0) L S)
                 (<[fresh_block (heap w) := zeros (L * S)]> (heap w)))
    else
      Returns (S_ERR_OUT_OF_MEMORY, tt)
        (mkWorld (mkArray NULL (length (inst w)) (elem_size (inst w))) (heap w)).
Proof.
  intros HS. unfold_ops. unfold calloc.
  destruct (Z.eqb_spec S 0) as [|_]; [done|].
  destruct ((L =? 0) || (L >? SIZE_MAX / S)); [done|].
  destruct (ok && (L * S <=? SIZE_MAX)); done.
Qed.

Lemma array_init_out_of_range L S ok w :
  0 < S → L = 0 ∨ L > SIZE_MAX / S →
  array_init present L S ok w = Returns (S_ERR_OUT_OF_RANGE, tt) w.
Proof.
  intros HS HL. rewrite array_init_present by lia.
  destruct (Z.eqb_spec L 0); [done|].
  rewrite Z.gtb_ltb. destruct (Z.ltb_spec (SIZE_MAX / S) L); [done|lia].
Qed.

Lemma array_init_in_range L S ok w :
  0 < S → 0 < L → L <= SIZE_MAX / S →
  array_init present L S ok w =
    if ok then
      Returns (S_OK, tt)
        (mkWorld (mkArray (Ptr (fresh_block (heap w)) 0) L S)
                 (<[fresh_block (heap w) := zeros (L * S)]> (heap w)))
    else
      Returns (S_ERR_OUT_OF_MEMORY, tt)
        (mkWorld (mkArray NULL (length (inst w)) (elem_size (inst w))) (heap w)).
Proof.
  intros HS HL Hle. rewrite array_init_present by lia.
  destruct (Z.eqb_spec L 0); [lia|].
  rewrite Z.gtb_ltb. destruct (Z.ltb_spec (SIZE_MAX / S) L); [lia|]. simpl.
  pose proof (length_check_no_overflow L S HS HL Hle) as [_ Hfit].
  rewrite (proj2 (Z.leb_le _ _) Hfit), andb_true_r. done.
Qed.

Lemma array_init_ok L S w :
  0 < S → 0 < L → L <= SIZE_MAX / S →
  array_init present L S true w =
    Returns (S_OK, tt)
      (mkWorld (mkArray (Ptr (fresh_block (heap w)) 0) L S)
               (<[fresh_block (heap w) := zeros (L * S)]> (heap w))).
Proof. intros. by rewrite array_init_in_range. Qed.

Lemma array_init_oom L S w :
  0 < S → 0 < L → L <= SIZE_MAX / S →
  array_init present L S false w =
    Returns (S_ERR_OUT_OF_MEMORY, tt)
      (mkWorld (mkArray NULL (length (inst w)) (elem_size (inst w))) (heap w)).
Proof. intros. by rewrite array_init_in_range. Qed.

(** A successful call tells everything about its arguments and result. *)
Lemma array_init_ok_inv L S ok w w' :
  0 < S → 0 <= L →
  array_init present L S ok w = Returns (S_OK, tt) w' →
  0 < L ∧ L <= SIZE_MAX / S ∧ ok = true ∧
  w' = mkWorld (mkArray (Ptr (fresh_block (heap w)) 0) L S)
               (<[fresh_block (heap w) := zeros (L * S)]> (heap w)).
Proof.
  intros HS HL. rewrite array_init_present by lia.
  destruct (Z.eqb_spec L 0); [done|].
  rewrite Z.gtb_ltb. destruct (Z.ltb_spec (SIZE_MAX / S) L); [done|]. simpl.
  assert (0 <= SIZE_MAX / S) by (pose proof SIZE_MAX_pos; apply Z.div_pos; lia).
  destruct ok; simpl; [|done].
  destruct (L * S <=? SIZE_MAX) eqn:Hfit; [|done].
  intros [= <-]. apply Z.leb_le in Hfit.
  repeat split; try done; lia.
Qed.

Lemma fresh_block_not_live (h : gmap block bytes) : h !! fresh_block h = None.
Proof. apply not_elem_of_dom. unfold fresh_block. apply is_fresh. Qed.
End init_cases.

(** ** [array_set] and [array_get] on an allocated instance *)

Section access.
Implicit Types (L S i : Z) (w : world) (v out : bytes).

Lemma array_init_allocated L S ok w w' :
  0 <= S → 0 <= L →
  array_init present L S ok w = Returns (S_OK, tt) w' →
  allocated L S w'.
Proof.
  intros HS HL Hinit.
  assert (S ≠ 0) by (intros ->; by rewrite array_init_zero_elem_size in Hinit).
  apply array_init_ok_inv in Hinit as (HL' & Hle & -> & ->); [|lia..].
  pose proof (length_check_no_overflow L S ltac:(lia) HL' Hle).
  exists (fresh_block (heap w)), (zeros (L * S)). simpl.
  rewrite lookup_insert_eq. unfold zeros. rewrite length_replicate.
  repeat split; try done; lia.
Qed.

(** Offsets of elements stay inside the storage and inside [size_t]. *)
Lemma element_offset L S i :
  0 < S → L * S <= SIZE_MAX → 0 <= i < L →
  size_wrap (i * S) = i * S ∧ 0 <= i * S ∧ i * S + S <= L * S.
Proof.
  intros HS Hfit Hi. split; [apply size_wrap_small|]; nia.
Qed.

(** An in-range, same-size write on an allocated instance succeeds and
    replaces exactly the bytes of element [i]. *)
Lemma array_set_allocated L S w i v :
  allocated L S w → 0 <= i < L → Z.of_nat (List.length v) = S →
  ∃ b bs bs',
    head (inst w) = Ptr b 0 ∧ heap w !! b = Some bs ∧
    write_at bs (i * S) v = Some bs' ∧
    array_set present i (Some v) S w =
      Returns (S_OK, tt) (mkWorld (inst w) (<[b := bs']> (heap w))).
Proof.
  intros (b & bs & Hinst & Hb & Hlen & HL & HS & Hfit) Hi Hv.
  destruct (element_offset L S i HS Hfit Hi) as (Hwrap & Hlo & Hhi).
  exists b, bs, (take (Z.to_nat (i * S)) bs ++ v ++
                 drop (Z.to_nat (i * S) + List.length v) bs).
  assert (write_at bs (i * S) v = Some
            (take (Z.to_nat (i * S)) bs ++ v ++
             drop (Z.to_nat (i * S) + List.length v) bs)) as Hw
    by (apply write_at_Some; lia).
  destruct w as [a h]; simpl_world in *; subst a. repeat split; try done.
  unfold_ops. unfold memcpy_to_heap. simpl_world.
  rewrite Z.geb_leb. destruct (Z.leb_spec L i); [lia|].
  rewrite Z.eqb_refl. simpl_world. rewrite Z.add_0_l, Hwrap. rewrite Hb.
  assert (read_at v 0 S = Some v) as -> by (rewrite <- Hv; apply read_at_whole).
  by rewrite Hw.
Qed.

(** Any successful [array_set] keeps the instance allocated. *)
Lemma array_set_preserves_allocated L S w i vin vs w' :
  allocated L S w →
  array_set present i vin vs w = Returns (S_OK, tt) w' →
  allocated L S w'.
Proof.
  intros (b & bs & Hinst & Hb & Hlen & HL & HS & Hfit).
  destruct w as [a h]; simpl_world in *; subst a.
  unfold_ops. unfold memcpy_to_heap. simpl_world.
  destruct (i >=? L); simpl_world; [done|].
  destruct (negb (S =? vs)); simpl_world; [done|]. rewrite Z.add_0_l.
  destruct vin as [s|]; [|done]. rewrite Hb.
  destruct (read_at s 0 vs) as [v|]; [|done].
  destruct (write_at bs (size_wrap (i * S)) v) as [bs'|] eqn:Hw; [|done].
  intros [= <-]. exists b, bs'. simpl.
  rewrite lookup_insert_eq, (write_at_length _ _ _ _ Hw).
  repeat split; done.
Qed.

Lemma initialized_allocated L S w :
  0 <= L → 0 <= S → initialized L S w → allocated L S w.
Proof.
  intros HL HS. induction 1 as [ok w0 w Hinit | w i v vs w' _ IH Hset].
  - by eapply array_init_allocated.
  - by eapply array_set_preserves_allocated.
Qed.

(** Reading element [i] of an allocated instance into a buffer of exactly
    [S] bytes yields the [S] bytes stored at offset [i * S]. *)
Lemma array_get_allocated L S w i out b bs :
  allocated L S w → 0 <= i < L → Z.of_nat (List.length out) = S →
  head (inst w) = Ptr b 0 → heap w !! b = Some bs →
  ∃ v, read_at bs (i * S) S = Some v ∧
       array_get present i (Some out) S w = Returns (S_OK, Some v) w.
Proof.
  intros (b' & bs' & Hinst & Hb' & Hlen & HL & HS & Hfit) Hi Hout Hhead Hb.
  destruct w as [a h]; simpl_world in *; subst a.
  injection Hhead as <-. rewrite Hb in Hb'. injection Hb' as <-.
  destruct (element_offset L S i HS Hfit Hi) as (Hwrap & Hlo & Hhi).
  exists (take (Z.to_nat S) (drop (Z.to_nat (i * S)) bs)).
  assert (read_at bs (i * S) S =
          Some (take (Z.to_nat S) (drop (Z.to_nat (i * S)) bs))) as Hr
    by (apply read_at_Some; lia).
  split; [done|].
  unfold_ops. unfold memcpy_from_heap. simpl_world.
  rewrite Z.geb_leb. destruct (Z.leb_spec L i); [lia|].
  rewrite Z.eqb_refl. simpl_world. rewrite Z.add_0_l, Hwrap, Hb, Hr.
  rewrite write_at_whole; [done|].
  rewrite length_take, length_drop. lia.
Qed.
End access.

(** * The properties of the specification *)

(** ** Element access *)

(** C1 (round-trip law).  On an array successfully initialised with length
    [L] and element size [S] (and possibly written since), for every index
    [i] in [[0, L)] and every value [v] of exactly [S] bytes,
    [array_set (i, v, S)] returns [S_OK], and a following
    [array_get (i, S)] into a destination of [S] bytes returns [S_OK] and
    leaves exactly the bytes of [v] in the destination. *)
Theorem set_get_roundtrip L S w i (v out : bytes) :
  initialized L S w →
  0 <= i < L →
  Z.of_nat (List.length v) = S →
  List.length out = List.length v →
  ∃ w', array_set present i (Some v) S w = Returns (S_OK, tt) w' ∧
        array_get present i (Some out) S w' = Returns (S_OK, Some v) w'.
Proof.
  intros Hinit Hi Hv Hout.
  assert (allocated L S w) as Halloc by (apply initialized_allocated; [lia..|done]).
  destruct (array_set_allocated L S w i v Halloc Hi Hv)
    as (b & bs & bs' & Hhead & Hb & Hw & Hset).
  eexists. split; [exact Hset|].
  assert (allocated L S (mkWorld (inst w) (<[b:=bs']> (heap w)))) as Halloc'
    by (eapply array_set_preserves_allocated; [exact Halloc|exact Hset]).
  destruct (array_get_allocated L S _ i out b bs' Halloc' Hi) as (v' & Hr & Hget).
  - lia.
  - done.
  - apply lookup_insert_eq.
  - rewrite Hget. apply read_at_write_at in Hw. rewrite Hv, Hr in Hw.
    by injection Hw as ->.
Qed.

Lemma set_get_roundtrip_witness :
  ∃ w', array_set present 1 (Some [x2a; x00; x00; x00]) 4 world_3x4
          = Returns (S_OK, tt) w' ∧
        array_get present 1 (Some [xff; xff; xff; xff]) 4 w'
          = Returns (S_OK, Some [x2a; x00; x00; x00]) w'.
Proof.
  apply (set_get_roundtrip 3 4 world_3x4 1 [x2a; x00; x00; x00] [xff; xff; xff; xff]).
  - apply (initialized_init 3 4 true empty_world). vm_compute. reflexivity.
  - lia.
  - reflexivity.
  - reflexivity.
Defined.

(** C2 (zero fill).  For every [length > 0] and [elem_size > 0] with
    [length <= SIZE_MAX / elem_size], when the allocator succeeds,
    [array_init] on a present instance (whatever its previous content, the
    unallocated one included) returns [S_OK], and right after it
    [array_get] of every index in [[0, length)] with the matching size
    returns [S_OK] with all-zero bytes, leaving the world as it was. *)
Theorem init_zero_filled L S w :
  0 < L → 0 < S → L <= SIZE_MAX / S →
  ∃ w', array_init present L S true w = Returns (S_OK, tt) w' ∧
        length (inst w') = L ∧ elem_size (inst w') = S ∧
        ∀ i (out : bytes), 0 <= i < L → Z.of_nat (List.length out) = S →
          array_get present i (Some out) S w' = Returns (S_OK, Some (zeros S)) w'.
Proof.
  intros HL HS Hle. eexists. split; [by apply array_init_ok|].
  split; [done|]. split; [done|]. intros i out Hi Hout.
  set (w' := mkWorld _ _).
  assert (allocated L S w') as Halloc.
  { apply (array_init_allocated L S true w); [lia..|]. by apply array_init_ok. }
  destruct (array_get_allocated L S w' i out (fresh_block (heap w)) (zeros (L * S))
              Halloc Hi Hout) as (v & Hr & Hget).
  - done.
  - apply lookup_insert_eq.
  - rewrite Hget. do 2 f_equal.
    destruct (length_check_no_overflow L S HS HL Hle) as [_ Hfit].
    destruct (element_offset L S i HS Hfit Hi) as (_ & Hlo & Hhi).
    rewrite read_at_zeros in Hr by lia. by injection Hr as <-.
Qed.

Lemma init_zero_filled_witness :
  ∃ w', array_init present 10 4 true empty_world = Returns (S_OK, tt) w' ∧
        length (inst w') = 10 ∧ elem_size (inst w') = 4 ∧
        ∀ i (out : bytes), 0 <= i < 10 → Z.of_nat (List.length out) = 4 →
          array_get present i (Some out) 4 w' = Returns (S_OK, Some (zeros 4)) w'.
Proof.
  apply (init_zero_filled 10 4 empty_world); [lia | lia | vm_compute; discriminate].
Defined.

(** ** The checks of [array_set], [array_get] and [array_len] *)

Section checks.
Implicit Types (i vs : Z) (w : world) (vin vout : option bytes).

Lemma array_set_absent i vin vs w :
  array_set absent i vin vs w = Returns (S_ERR_SELF_IS_NULL, tt) w.
Proof. reflexivity. Qed.

Lemma array_set_out_of_range i vin vs w :
  i >= length (inst w) →
  array_set present i vin vs w = Returns (S_ERR_OUT_OF_RANGE, tt) w.
Proof.
  intros Hi. unfold_ops. rewrite Z.geb_leb.
  destruct (Z.leb_spec (length (inst w)) i); [done|lia].
Qed.

Lemma array_set_size_mismatch i vin vs w :
  i < length (inst w) → vs ≠ elem_size (inst w) →
  array_set present i vin vs w = Returns (S_ERR_ELEMENT_SIZE_MISMATCH, tt) w.
Proof.
  intros Hi Hvs. unfold_ops. rewrite Z.geb_leb.
  destruct (Z.leb_spec (length (inst w)) i); [lia|].
  destruct (Z.eqb_spec (elem_size (inst w)) vs); [congruence|done].
Qed.

Lemma array_get_absent i vout vs w :
  array_get absent i vout vs w = Returns (S_ERR_SELF_IS_NULL, vout) w.
Proof. reflexivity. Qed.

Lemma array_get_null_destination i vs w :
  array_get present i None vs w = Returns (S_ERR_RETURN_PARAMS_IS_NULL, None) w.
Proof. reflexivity. Qed.

Lemma array_get_out_of_range i (out : bytes) vs w :
  i >= length (inst w) →
  array_get present i (Some out) vs w = Returns (S_ERR_OUT_OF_RANGE, Some out) w.
Proof.
  intros Hi. unfold_ops. rewrite Z.geb_leb.
  destruct (Z.leb_spec (length (inst w)) i); [done|lia].
Qed.

Lemma array_get_size_mismatch i (out : bytes) vs w :
  i < length (inst w) → vs ≠ elem_size (inst w) →
  array_get present i (Some out) vs w =
    Returns (S_ERR_ELEMENT_SIZE_MISMATCH, Some out) w.
Proof.
  intros Hi Hvs. unfold_ops. rewrite Z.geb_leb.
  destruct (Z.leb_spec (length (inst w)) i); [lia|].
  destruct (Z.eqb_spec (elem_size (inst w)) vs); [congruence|done].
Qed.

(** [array_set] returns only [S_OK] once its three checks have passed. *)
Lemma array_set_checks_passed i vin vs w st w' :
  i < length (inst w) → vs = elem_size (inst w) →
  array_set present i vin vs w = Returns (st, tt) w' → st = S_OK.
Proof.
  intros Hi ->. unfold_ops. rewrite Z.geb_leb.
  destruct (Z.leb_spec (length (inst w)) i); [lia|].
  rewrite Z.eqb_refl. simpl_world.
  destruct (head (inst w)); [done|].
  destruct (memcpy_to_heap _ _ _ _); [|done]. by intros [= <- _].
Qed.

Lemma array_get_checks_passed i (out : bytes) vs w st r w' :
  i < length (inst w) → vs = elem_size (inst w) →
  array_get present i (Some out) vs w = Returns (st, r) w' → st = S_OK.
Proof.
  intros Hi ->. unfold_ops. rewrite Z.geb_leb.
  destruct (Z.leb_spec (length (inst w)) i); [lia|].
  rewrite Z.eqb_refl. simpl_world.
  destruct (head (inst w)); [done|].
  destruct (memcpy_from_heap _ _ _ _); [|done]. by intros [= <- _].
Qed.

(** An error return of [array_set] leaves the world as it was. *)
Lemma array_set_error_unchanged self i vin vs w st w' :
  array_set self i vin vs w = Returns (st, tt) w' → st ≠ S_OK → w' = w.
Proof.
  destruct self as [[]|]; [|by intros [= <- <-]].
  destruct (Z.lt_ge_cases i (length (inst w))) as [Hi|Hi].
  - destruct (Z.eq_dec vs (elem_size (inst w))) as [Hvs|Hvs].
    + intros Hset Hst. by apply array_set_checks_passed in Hset.
    + rewrite array_set_size_mismatch by done. by intros [= <- <-].
  - rewrite array_set_out_of_range by lia. by intros [= <- <-].
Qed.

Lemma memcpy_from_heap_world (dst : bytes) src n w r w' :
  memcpy_from_heap dst src n w = Returns r w' → w' = w.
Proof.
  unfold memcpy_from_heap. destruct src as [|b off]; [done|].
  destruct (heap w !! b); [|done].
  destruct (read_at _ _ _); [|done].
  destruct (write_at _ _ _); [|done]. by intros [= _ <-].
Qed.

(** [array_get] never changes the world, and on error it does not touch
    the destination either. *)
Lemma array_get_world self i vout vs w st r w' :
  array_get self i vout vs w = Returns (st, r) w' →
  w' = w ∧ (st ≠ S_OK → r = vout).
Proof.
  destruct self as [[]|]; [|by intros [= <- <- <-]].
  destruct vout as [out|]; [|by intros [= <- <- <-]].
  destruct (Z.lt_ge_cases i (length (inst w))) as [Hi|Hi].
  - destruct (Z.eq_dec vs (elem_size (inst w))) as [Hvs|Hvs].
    + intros Hget. pose proof (array_get_checks_passed _ _ _ _ _ _ _ Hi Hvs Hget) as ->.
      split; [|done]. revert Hget. subst vs. unfold_ops. rewrite Z.geb_leb.
      destruct (Z.leb_spec (length (inst w)) i); [lia|].
      rewrite Z.eqb_refl. simpl_world.
      destruct (head (inst w)); [done|].
      destruct (memcpy_from_heap _ _ _ _) eqn:Hcpy; [|done].
      intros [= _ <-]. by apply memcpy_from_heap_world in Hcpy.
    + rewrite array_get_size_mismatch by done. by intros [= <- <- <-].
  - rewrite array_get_out_of_range by lia. by intros [= <- <- <-].
Qed.

Lemma array_len_absent (lout : option Z) w :
  array_len absent lout w = Returns (S_ERR_SELF_IS_NULL, lout) w.
Proof. reflexivity. Qed.

Lemma array_len_null_destination w :
  array_len present None w = Returns (S_ERR_RETURN_PARAMS_IS_NULL, None) w.
Proof. reflexivity. Qed.

Lemma array_len_present (old : Z) w :
  array_len present (Some old) w = Returns (S_OK, Some (length (inst w))) w.
Proof. reflexivity. Qed.
End checks.

(** ** [array_free], case by case *)

Section free_cases.
Implicit Types (w : world).

Lemma array_free_absent w :
  array_free absent w = Returns (S_ERR_SELF_IS_NULL, tt) w.
Proof. reflexivity. Qed.

Lemma array_free_empty w :
  head (inst w) = NULL →
  array_free present w = Returns (S_OK, tt) (mkWorld (mkArray NULL 0 0) (heap w)).
Proof. intros Hhead. unfold_ops. unfold free. by rewrite Hhead. Qed.

Lemma array_free_live w b :
  head (inst w) = Ptr b 0 → is_Some (heap w !! b) →
  array_free present w =
    Returns (S_OK, tt) (mkWorld (mkArray NULL 0 0) (delete b (heap w))).
Proof.
  intros Hhead [bs Hb]. unfold_ops. unfold free. by rewrite Hhead, Hb.
Qed.

(** Whenever [array_free] returns on a present handle, it returns [S_OK]
    and the instance is the empty one. *)
Lemma array_free_returns w st w' :
  array_free present w = Returns (st, tt) w' →
  st = S_OK ∧ inst w' = mkArray NULL 0 0.
Proof.
  unfold_ops. destruct (free _ _); [|done]. by intros [= <- <-].
Qed.
End free_cases.

(** ** Error statuses *)

(** C3, as amended.  With [value_size != elem_size] on a present instance,
    [array_set] returns [S_ERR_ELEMENT_SIZE_MISMATCH] when the index is in
    range, and so does [array_get] when moreover the destination is present;
    when the index is not in range the range check, which comes first,
    decides and the result is [S_ERR_OUT_OF_RANGE].  Nothing is changed in
    either case. *)
Theorem size_mismatch_after_range_check w i vs vin (out : bytes) :
  vs ≠ elem_size (inst w) →
  (i < length (inst w) →
     array_set present i vin vs w = Returns (S_ERR_ELEMENT_SIZE_MISMATCH, tt) w ∧
     array_get present i (Some out) vs w =
       Returns (S_ERR_ELEMENT_SIZE_MISMATCH, Some out) w) ∧
  (i >= length (inst w) →
     array_set present i vin vs w = Returns (S_ERR_OUT_OF_RANGE, tt) w ∧
     array_get present i (Some out) vs w = Returns (S_ERR_OUT_OF_RANGE, Some out) w).
Proof.
  intros Hvs. split; intros Hi.
  - by rewrite array_set_size_mismatch, array_get_size_mismatch.
  - by rewrite array_set_out_of_range, array_get_out_of_range.
Qed.

Lemma size_mismatch_after_range_check_witness :
  (1 < length (inst world_3x4) →
     array_set present 1 (Some [x01]) 1 world_3x4 =
       Returns (S_ERR_ELEMENT_SIZE_MISMATCH, tt) world_3x4 ∧
     array_get present 1 (Some [x01]) 1 world_3x4 =
       Returns (S_ERR_ELEMENT_SIZE_MISMATCH, Some [x01]) world_3x4) ∧
  (1 >= length (inst world_3x4) →
     array_set present 1 (Some [x01]) 1 world_3x4 =
       Returns (S_ERR_OUT_OF_RANGE, tt) world_3x4 ∧
     array_get present 1 (Some [x01]) 1 world_3x4 =
       Returns (S_ERR_OUT_OF_RANGE, Some [x01]) world_3x4).
Proof.
  apply (size_mismatch_after_range_check world_3x4 1 1 (Some [x01]) [x01]).
  vm_compute. discriminate.
Defined.

(** C3, as stated, fails: on the allocated instance of 3 elements of 4
    bytes, a write and a read of 8 bytes at index 3 return
    [S_ERR_OUT_OF_RANGE], not [S_ERR_ELEMENT_SIZE_MISMATCH]. *)
Lemma size_mismatch_regardless_of_index_counterexample :
  allocated 3 4 world_3x4 ∧ 8 ≠ elem_size (inst world_3x4) ∧
  status_of (array_set present 3 (Some (zeros 8)) 8 world_3x4)
    = Some S_ERR_OUT_OF_RANGE ∧
  status_of (array_get present 3 (Some (zeros 8)) 8 world_3x4)
    = Some S_ERR_OUT_OF_RANGE ∧
  S_ERR_OUT_OF_RANGE ≠ S_ERR_ELEMENT_SIZE_MISMATCH.
Proof.
  split; [|by vm_compute].
  exists 1%positive, (zeros 12). by vm_compute.
Qed.


(** C5 (length bound).  On a present instance and for [elem_size > 0],
    [array_init] returns [S_ERR_OUT_OF_RANGE] exactly when [length] is 0 or
    exceeds [SIZE_MAX / elem_size]; whenever it returns [S_OK], the byte
    count [length * elem_size] is at most [SIZE_MAX], so that its
    computation in [size_t] does not wrap, and the storage has that many
    bytes. *)
Theorem init_out_of_range_iff L S ok w :
  0 < S → 0 <= L →
  (status_of (array_init present L S ok w) = Some S_ERR_OUT_OF_RANGE
     ↔ L = 0 ∨ L > SIZE_MAX / S) ∧
  (∀ w', array_init present L S ok w = Returns (S_OK, tt) w' →
     0 < L * S <= SIZE_MAX ∧ size_wrap (L * S) = L * S ∧
     ∃ b bs, head (inst w') = Ptr b 0 ∧ heap w' !! b = Some bs ∧
             Z.of_nat (List.length bs) = L * S).
Proof.
  intros HS HL. split.
  - split.
    + intros Hst. destruct (Z.eq_dec L 0) as [|HL0]; [by left|right].
      destruct (Z_gt_le_dec L (SIZE_MAX / S)) as [|Hle]; [done|].
      rewrite array_init_in_range in Hst by lia. by destruct ok.
    + intros Hbad. by rewrite array_init_out_of_range.
  - intros w' Hinit.
    pose proof (array_init_allocated L S ok w w' ltac:(lia) HL Hinit)
      as (b & bs & Hinst & Hb & Hlen & HL' & _ & Hfit).
    split; [nia|]. split; [apply size_wrap_small; nia|].
    exists b, bs. by rewrite Hinst.
Qed.

Lemma init_out_of_range_iff_witness :
  (status_of (array_init present 3 4 true empty_world) = Some S_ERR_OUT_OF_RANGE
     ↔ 3 = 0 ∨ 3 > SIZE_MAX / 4) ∧
  (∀ w', array_init present 3 4 true empty_world = Returns (S_OK, tt) w' →
     0 < 3 * 4 <= SIZE_MAX ∧ size_wrap (3 * 4) = 3 * 4 ∧
     ∃ b bs, head (inst w') = Ptr b 0 ∧ heap w' !! b = Some bs ∧
             Z.of_nat (List.length bs) = 3 * 4).
Proof.
  apply (init_out_of_range_iff 3 4 true empty_world); lia.
Defined.

(** ** Release and length *)

Lemma free_idempotent_gen w :
  storage_valid w →
  ∃ w1, array_free present w = Returns (S_OK, tt) w1 ∧
        inst w1 = mkArray NULL 0 0 ∧
        heap w1 = match head (inst w) with
                  | NULL => heap w
                  | Ptr b _ => delete b (heap w)
                  end ∧
        array_free present w1 = Returns (S_OK, tt) w1.
Proof.
  intros [Hnull | (b & Hhead & Hlive)].
  - eexists. split; [by apply array_free_empty|]. rewrite Hnull.
    repeat split; by rewrite ?array_free_empty.
  - eexists. split; [by eapply array_free_live|]. rewrite Hhead.
    repeat split; by rewrite ?array_free_empty.
Qed.

(** C7 (idempotent release).  On a present instance, allocated or not,
    [array_free] returns [S_OK], releases the storage block if there is
    one, stores null in the storage handle and zero in [length] and
    [elem_size]; a second call returns [S_OK] as well and changes nothing:
    the length is 0 both times. *)
Theorem free_idempotent w :
  storage_valid w →
  ∃ w1, array_free present w = Returns (S_OK, tt) w1 ∧
        inst w1 = mkArray NULL 0 0 ∧
        heap w1 = match head (inst w) with
                  | NULL => heap w
                  | Ptr b _ => delete b (heap w)
                  end ∧
        array_free present w1 = Returns (S_OK, tt) w1.
Proof. apply free_idempotent_gen. Qed.

Lemma free_idempotent_witness :
  ∃ w1, array_free present world_3x4 = Returns (S_OK, tt) w1 ∧
        inst w1 = mkArray NULL 0 0 ∧
        heap w1 = match head (inst world_3x4) with
                  | NULL => heap world_3x4
                  | Ptr b _ => delete b (heap world_3x4)
                  end ∧
        array_free present w1 = Returns (S_OK, tt) w1.
Proof.
  apply (free_idempotent world_3x4).
  right. exists 1%positive. split; [reflexivity|].
  exists (zeros 12). vm_compute. reflexivity.
Defined.

(** C8 (length query).  With a present instance and a present output
    destination, [array_len] returns [S_OK], writes the [length] field to
    the destination and leaves the world as it was; the value written is
    [n] after a successful [array_init (n, s)] and 0 after [array_free]. *)
Theorem len_reads_length :
  (∀ w (old : Z),
     array_len present (Some old) w = Returns (S_OK, Some (length (inst w))) w) ∧
  (∀ w n s ok w' (old : Z),
     array_init present n s ok w = Returns (S_OK, tt) w' →
     array_len present (Some old) w' = Returns (S_OK, Some n) w') ∧
  (∀ w st w' (old : Z),
     array_free present w = Returns (st, tt) w' →
     array_len present (Some old) w' = Returns (S_OK, Some 0) w') ∧
  (∀ w, storage_valid w →
     ∃ w', array_free present w = Returns (S_OK, tt) w' ∧
           ∀ old : Z, array_len present (Some old) w' = Returns (S_OK, Some 0) w').
Proof.
  split; [|split; [|split]]; [done|..|].
  - intros w n s ok w' old Hinit. rewrite array_len_present. do 2 f_equal.
    destruct (Z.eq_dec s 0) as [->|Hs];
      [by rewrite array_init_zero_elem_size in Hinit|].
    rewrite array_init_present in Hinit by done.
    destruct ((n =? 0) || _); [done|].
    destruct (ok && _); by simplify_eq.
  - intros w st w' old Hfree. rewrite array_len_present.
    apply array_free_returns in Hfree as [_ Hinst]. by rewrite Hinst.
  - intros w Hvalid.
    destruct (free_idempotent_gen w Hvalid) as (w' & Hfree & Hinst & _).
    exists w'. split; [done|]. intros old.
    by rewrite array_len_present, Hinst.
Qed.

(** ** [array_init] outside its intended use *)

(** C9 (zero element size).  [array_init] divides [SIZE_MAX] by
    [elem_size] before it looks at [length] and never checks [elem_size]:
    it is total exactly for the element sizes other than 0, and on a present
    instance (the null-handle check is all that precedes the division) a
    call with [elem_size = 0] is a division by zero, for every [length] and
    whatever the allocator would do, so that it returns no status, not even
    [S_ERR_OUT_OF_RANGE] for [length = 0]. *)
Theorem init_zero_elem_size_undefined :
  (∀ S, init_total_at S ↔ S ≠ 0) ∧
  (∀ L ok w, array_init present L 0 ok w = Undefined) ∧
  (∀ L ok w, status_of (array_init present L 0 ok w) = None).
Proof.
  split; [|done]. intros S. split.
  - intros Htotal ->.
    destruct (Htotal present 1 true empty_world) as (st & w' & Hinit).
    by rewrite array_init_zero_elem_size in Hinit.
  - intros HS self L ok w. destruct self as [[]|]; [|by eexists _, _].
    fold present. rewrite array_init_present by done.
    destruct ((L =? 0) || _); [by eexists _, _|].
    destruct (ok && _); by eexists _, _.
Qed.

Section init_again.
Implicit Types (w : world).

(** Blocks that are live before [array_init] are live, with the same
    content, after it. *)
Lemma array_init_keeps_blocks self L S ok w st w' b (bs : bytes) :
  array_init self L S ok w = Returns (st, tt) w' →
  heap w !! b = Some bs → heap w' !! b = Some bs.
Proof.
  intros Hinit Hb. destruct self as [[]|]; [|by injection Hinit as _ <-].
  fold present in Hinit.
  destruct (Z.eq_dec S 0) as [->|HS];
    [by rewrite array_init_zero_elem_size in Hinit|].
  rewrite array_init_present in Hinit by done.
  destruct ((L =? 0) || _); [by simplify_eq|].
  destruct (ok && _); simplify_eq; [|done]. simpl.
  rewrite lookup_insert_ne; [done|].
  intros Heq. by rewrite <- Heq, fresh_block_not_live in Hb.
Qed.

(** What an error return of [array_init] leaves behind. *)
Lemma array_init_error self L S ok w st w' :
  array_init self L S ok w = Returns (st, tt) w' → st ≠ S_OK →
  (st ≠ S_ERR_OUT_OF_MEMORY ∧ w' = w) ∨
  (st = S_ERR_OUT_OF_MEMORY ∧
   w' = mkWorld (mkArray NULL (length (inst w)) (elem_size (inst w))) (heap w)).
Proof.
  intros Hinit Hst. destruct self as [[]|]; [|left; by injection Hinit as <- <-].
  fold present in Hinit.
  destruct (Z.eq_dec S 0) as [->|HS];
    [by rewrite array_init_zero_elem_size in Hinit|].
  rewrite array_init_present in Hinit by done.
  destruct ((L =? 0) || _); [left; by simplify_eq|].
  destruct (ok && _); simplify_eq. by right.
Qed.
End init_again.


(** After a failed second initialisation the instance keeps its old length
    with a null handle: an in-range write is then undefined. *)
Example set_after_failed_reinit :
  array_init present 5 4 false world_3x4 =
    Returns (S_ERR_OUT_OF_MEMORY, tt) world_3x4_reinit_oom ∧
  array_set present 0 (Some (zeros 4)) 4 world_3x4_reinit_oom = Undefined.
Proof. split; by vm_compute. Qed.

(** ** Failure atomicity *)

(** A returning [array_set] has either changed nothing or replaced, inside
    the storage block, the [value_size] bytes at the element's offset by
    the first [value_size] bytes of the source. *)
Lemma array_set_all_or_nothing self i vin vs w st w' :
  array_set self i vin vs w = Returns (st, tt) w' →
  (st ≠ S_OK ∧ w' = w) ∨
  (st = S_OK ∧ vs = elem_size (inst w) ∧
   ∃ b o (bs v bs' src : bytes),
     head (inst w) = Ptr b o ∧ heap w !! b = Some bs ∧
     vin = Some src ∧ read_at src 0 vs = Some v ∧
     write_at bs (o + size_wrap (i * vs)) v = Some bs' ∧
     w' = mkWorld (inst w) (<[b := bs']> (heap w))).
Proof.
  intros Hset. destruct (decide (st = S_OK)) as [->|Hst];
    [right|left; split; [done|exact (array_set_error_unchanged _ _ _ _ _ _ _ Hset Hst)]].
  revert Hset. destruct self as [[]|]; [|done]. unfold_ops.
  destruct (i >=? length (inst w)); simpl_world; [done|].
  destruct (Z.eqb_spec (elem_size (inst w)) vs) as [<-|]; simpl_world; [|done].
  destruct (head (inst w)) as [|b o] eqn:Hhd; [done|]. unfold memcpy_to_heap.
  destruct vin as [src|]; [|done].
  destruct (heap w !! b) as [bs|] eqn:Hb; [|done].
  destruct (read_at src 0 _) as [v|] eqn:Hr; [|done].
  destruct (write_at bs _ v) as [bs'|] eqn:Hw; [|done].
  intros [= <-]. repeat split. exists b, o, bs, v, bs', src. repeat split; done.
Qed.



(** * The repository's tests, run on the embedding

    [int] is 4 bytes, little-endian; the tests start from an instance that
    was only declared. *)

Example test_array_init_and_free_run :
  ∃ w1 w2,
    array_init present 10 4 true uninitialized_world = Returns (S_OK, tt) w1 ∧
    head (inst w1) ≠ NULL ∧ length (inst w1) = 10 ∧
    array_free present w1 = Returns (S_OK, tt) w2 ∧
    head (inst w2) = NULL ∧ length (inst w2) = 0.
Proof. eexists _, _. repeat split; by vm_compute. Qed.

Example test_array_init_invalid_inputs_run :
  status_of (array_init absent 10 4 true uninitialized_world) = Some S_ERR_SELF_IS_NULL ∧
  status_of (array_init present 0 4 true uninitialized_world) = Some S_ERR_OUT_OF_RANGE.
Proof. split; by vm_compute. Qed.

Example test_array_set_and_get_run :
  ∃ w1 w2,
    array_init present 5 4 true uninitialized_world = Returns (S_OK, tt) w1 ∧
    array_set present 2 (Some [x2a; x00; x00; x00]) 4 w1 = Returns (S_OK, tt) w2 ∧
    array_get present 2 (Some [x00; x00; x00; x00]) 4 w2 =
      Returns (S_OK, Some [x2a; x00; x00; x00]) w2.
Proof. eexists _, _. repeat split; by vm_compute. Qed.

Example test_array_bounds_check_run :
  status_of (array_set present 3 None 4 world_3x4) = Some S_ERR_OUT_OF_RANGE ∧
  status_of (array_get present 3 None 4 world_3x4) = Some S_ERR_RETURN_PARAMS_IS_NULL ∧
  status_of (array_get absent 1 None 4 world_3x4) = Some S_ERR_SELF_IS_NULL.
Proof. repeat split; by vm_compute. Qed.

Example test_array_len_run :
  ∃ w1,
    array_init present 7 4 true uninitialized_world = Returns (S_OK, tt) w1 ∧
    array_len present (Some 0) w1 = Returns (S_OK, Some 7) w1 ∧
    status_of (array_len absent (Some 7) w1) = Some S_ERR_SELF_IS_NULL ∧
    status_of (array_len present None w1) = Some S_ERR_RETURN_PARAMS_IS_NULL.
Proof. eexists. repeat split; by vm_compute. Qed.

(** Releasing an instance that was only declared hands [free] a pointer
    that is not live. *)
Example free_uninitialized_undefined :
  array_free present uninitialized_world = Undefined.
Proof. by vm_compute. Qed.

(** * Further properties of the code *)

(** ** Byte ranges, by position *)

Section byte_positions.
Implicit Types (bs v : bytes) (off n : Z) (k : nat).

Lemma write_at_lookup bs off v bs' k :
  write_at bs off v = Some bs' →
  bs' !! k =
    if decide (Z.to_nat off ≤ k < Z.to_nat off + List.length v)%nat
    then v !! (k - Z.to_nat off)%nat
    else bs !! k.
Proof.
  intros (Hoff & Hfit & ->)%write_at_inv.
  assert (List.length (take (Z.to_nat off) bs) = Z.to_nat off) as Htake
    by (rewrite length_take; lia).
  case_decide as Hk.
  - rewrite lookup_app_r by lia. rewrite Htake. apply lookup_app_l. lia.
  - destruct (decide (k < Z.to_nat off)%nat).
    + rewrite lookup_app_l by lia. by apply lookup_take_lt.
    + rewrite lookup_app_r by lia. rewrite lookup_app_r by lia.
      rewrite lookup_drop, Htake. f_equal. lia.
Qed.

Lemma read_at_lookup bs off n v k :
  read_at bs off n = Some v →
  v !! k = if decide (k < Z.to_nat n)%nat then bs !! (Z.to_nat off + k)%nat else None.
Proof.
  unfold read_at. destruct (_ && _); [|done]. intros [= <-].
  case_decide.
  - rewrite lookup_take_lt by done. apply lookup_drop.
  - apply lookup_take_ge. lia.
Qed.

Lemma read_at_length bs off n v :
  read_at bs off n = Some v → Z.of_nat (List.length v) = n.
Proof.
  unfold read_at. destruct (_ && _) eqn:Hc; [|done]. intros [= <-].
  rewrite !andb_true_iff, !Z.leb_le in Hc.
  rewrite length_take, length_drop. lia.
Qed.

Lemma read_at_is_Some bs off n :
  0 <= off → 0 <= n → off + n <= Z.of_nat (List.length bs) →
  ∃ v, read_at bs off n = Some v ∧ Z.of_nat (List.length v) = n.
Proof.
  intros. eexists. split; [by apply read_at_Some|].
  rewrite length_take, length_drop. lia.
Qed.

(** Two reads of the same range agree when the lists agree on it. *)
Lemma read_at_ext bs1 bs2 off n :
  List.length bs1 = List.length bs2 →
  (∀ k, (Z.to_nat off ≤ k < Z.to_nat off + Z.to_nat n)%nat → bs1 !! k = bs2 !! k) →
  read_at bs1 off n = read_at bs2 off n.
Proof.
  intros Hlen Hagree. unfold read_at. rewrite Hlen.
  destruct (_ && _); [|done]. f_equal. apply list_eq. intros k.
  destruct (decide (k < Z.to_nat n)%nat).
  - rewrite !lookup_take_lt, !lookup_drop by done. apply Hagree. lia.
  - by rewrite !lookup_take_ge by lia.
Qed.

(** A write does not show in a range it does not meet. *)
Lemma read_at_write_at_disjoint bs off v bs' off2 n :
  write_at bs off v = Some bs' →
  0 <= off2 → 0 <= n →
  off2 + n <= off ∨ off + Z.of_nat (List.length v) <= off2 →
  read_at bs' off2 n = read_at bs off2 n.
Proof.
  intros Hw Hoff2 Hn Hdisj.
  pose proof (write_at_inv _ _ _ _ Hw) as (Hoff & _ & _).
  apply read_at_ext; [by eapply write_at_length|].
  intros k Hk. rewrite (write_at_lookup _ _ _ _ _ Hw).
  case_decide; [lia|done].
Qed.

(** Writing twice at the same place is writing the second value. *)
Lemma write_at_write_at bs off v1 bs1 v2 :
  write_at bs off v1 = Some bs1 →
  List.length v2 = List.length v1 →
  write_at bs1 off v2 = write_at bs off v2.
Proof.
  intros Hw1 Hlen.
  pose proof (write_at_inv _ _ _ _ Hw1) as (Hoff & Hfit & _).
  pose proof (write_at_length _ _ _ _ Hw1) as Hlen1.
  assert (∃ a, write_at bs1 off v2 = Some a) as [a Ha]
    by (eexists; apply write_at_Some; lia).
  assert (∃ c, write_at bs off v2 = Some c) as [c Hc]
    by (eexists; apply write_at_Some; lia).
  rewrite Ha, Hc. f_equal. apply list_eq. intros k.
  rewrite (write_at_lookup _ _ _ _ _ Ha), (write_at_lookup _ _ _ _ _ Hc).
  case_decide; [done|].
  rewrite (write_at_lookup _ _ _ _ _ Hw1). case_decide; [lia|done].
Qed.

(** Writing back what was read changes nothing. *)
Lemma write_at_read_at bs off n v :
  read_at bs off n = Some v → write_at bs off v = Some bs.
Proof.
  intros Hr. pose proof (read_at_length _ _ _ _ Hr) as Hlen. revert Hr.
  unfold read_at. destruct (_ && _) eqn:Hc; [|done]. intros Hr.
  rewrite !andb_true_iff, !Z.leb_le in Hc.
  assert (∃ a, write_at bs off v = Some a) as [a Ha]
    by (eexists; apply write_at_Some; lia).
  rewrite Ha. f_equal. apply list_eq. intros k.
  rewrite (write_at_lookup _ _ _ _ _ Ha). case_decide as Hk; [|done].
  assert (read_at bs off n = Some v) as Hr'
    by (unfold read_at; rewrite (proj2 (andb_true_iff _ _)); [done|];
        rewrite andb_true_iff, !Z.leb_le; lia).
  rewrite (read_at_lookup _ _ _ _ _ Hr'). case_decide; [|lia]. f_equal. lia.
Qed.

(** Writes to ranges that do not meet can be done in either order. *)
Lemma write_at_commute bs off1 v1 off2 v2 bs1 bs2 :
  write_at bs off1 v1 = Some bs1 →
  write_at bs off2 v2 = Some bs2 →
  off1 + Z.of_nat (List.length v1) <= off2 ∨
    off2 + Z.of_nat (List.length v2) <= off1 →
  ∃ bs12, write_at bs1 off2 v2 = Some bs12 ∧ write_at bs2 off1 v1 = Some bs12.
Proof.
  intros Hw1 Hw2 Hdisj.
  pose proof (write_at_inv _ _ _ _ Hw1) as (Hoff1 & Hfit1 & _).
  pose proof (write_at_inv _ _ _ _ Hw2) as (Hoff2 & Hfit2 & _).
  pose proof (write_at_length _ _ _ _ Hw1) as Hlen1.
  pose proof (write_at_length _ _ _ _ Hw2) as Hlen2.
  assert (∃ a, write_at bs1 off2 v2 = Some a) as [a Ha]
    by (eexists; apply write_at_Some; lia).
  assert (∃ c, write_at bs2 off1 v1 = Some c) as [c Hc]
    by (eexists; apply write_at_Some; lia).
  exists a. split; [done|]. rewrite Hc. f_equal. apply list_eq. intros k.
  rewrite (write_at_lookup _ _ _ _ _ Ha), (write_at_lookup _ _ _ _ _ Hc),
    (write_at_lookup _ _ _ _ _ Hw1), (write_at_lookup _ _ _ _ _ Hw2).
  repeat case_decide; try done; lia.
Qed.
End byte_positions.

(** ** Sequencing *)

Lemma bind_Returns {A B} (m : M A) (k : A → M B) w a w' :
  m w = Returns a w' → (m ≫= k) w = k a w'.
Proof. intros Hm. unfold mbind, M_bind. by rewrite Hm. Qed.

Lemma bind_Undefined {A B} (m : M A) (k : A → M B) w :
  m w = Undefined → (m ≫= k) w = Undefined.
Proof. intros Hm. unfold mbind, M_bind. by rewrite Hm. Qed.

(** ** Access through the storage block *)

Section array_at.
Implicit Types (L S i : Z) (w : world) (b : block) (bs v src out : bytes).

(** [array_set] with an in-range index and the matching size, on an
    instance whose storage is block [b] of [L * S] bytes. *)
Lemma array_set_at L S w b bs i vin :
  inst w = mkArray (Ptr b 0) L S → heap w !! b = Some bs →
  0 < S → L * S <= SIZE_MAX → 0 <= i < L →
  array_set present i vin S w =
    match vin with
    | Some src =>
        match read_at src 0 S with
        | Some v =>
            match write_at bs (i * S) v with
            | Some bs' => Returns (S_OK, tt) (mkWorld (inst w) (<[b := bs']> (heap w)))
            | None => Undefined
            end
        | None => Undefined
        end
    | None => Undefined
    end.
Proof.
  intros Hinst Hb HS Hfit Hi.
  destruct (element_offset L S i HS Hfit Hi) as (Hwrap & _ & _).
  destruct w as [a h]; simpl_world in *; subst a.
  unfold_ops. unfold memcpy_to_heap. simpl_world.
  rewrite Z.geb_leb. destruct (Z.leb_spec L i); [lia|].
  rewrite Z.eqb_refl. simpl_world. rewrite Z.add_0_l, Hwrap, Hb.
  destruct vin as [src|]; [|done].
  destruct (read_at src 0 S); [|done]. by destruct (write_at _ _ _).
Qed.

Lemma array_get_at L S w b bs i out :
  inst w = mkArray (Ptr b 0) L S → heap w !! b = Some bs →
  0 < S → L * S <= SIZE_MAX → 0 <= i < L →
  array_get present i (Some out) S w =
    match read_at bs (i * S) S with
    | Some v =>
        match write_at out 0 v with
        | Some out' => Returns (S_OK, Some out') w
        | None => Undefined
        end
    | None => Undefined
    end.
Proof.
  intros Hinst Hb HS Hfit Hi.
  destruct (element_offset L S i HS Hfit Hi) as (Hwrap & _ & _).
  destruct w as [a h]; simpl_world in *; subst a.
  unfold_ops. unfold memcpy_from_heap. simpl_world.
  rewrite Z.geb_leb. destruct (Z.leb_spec L i); [lia|].
  rewrite Z.eqb_refl. simpl_world. rewrite Z.add_0_l, Hwrap, Hb.
  destruct (read_at bs (i * S) S); [|done]. by destruct (write_at _ _ _).
Qed.

(** The element at an in-range index lies inside the storage. *)
Lemma element_in_storage L S bs i :
  Z.of_nat (List.length bs) = L * S → 0 < S → 0 <= i < L →
  0 <= i * S ∧ i * S + S <= Z.of_nat (List.length bs).
Proof. intros. nia. Qed.

(** Elements at different indices do not share a byte. *)
Lemma elements_disjoint S i j :
  0 < S → i ≠ j → i * S + S <= j * S ∨ j * S + S <= i * S.
Proof. intros. nia. Qed.

(** A source buffer of at least [S] bytes gives its first [S] bytes. *)
Lemma read_at_prefix src S :
  0 <= S <= Z.of_nat (List.length src) →
  ∃ v, read_at src 0 S = Some v ∧ Z.of_nat (List.length v) = S.
Proof. intros. apply read_at_is_Some; lia. Qed.

Lemma read_at_exact v S :
  Z.of_nat (List.length v) = S → read_at v 0 S = Some v.
Proof. intros <-. apply read_at_whole. Qed.

(** A destination of at least [|v|] bytes receives [v] in front. *)
Lemma write_at_front out v :
  (List.length v ≤ List.length out)%nat →
  write_at out 0 v = Some (v ++ drop (List.length v) out).
Proof. intros. rewrite write_at_Some by lia. done. Qed.

Lemma write_at_too_short out v :
  (List.length out < List.length v)%nat → write_at out 0 v = None.
Proof.
  intros. unfold write_at.
  destruct (Z.leb_spec (0 + Z.of_nat (List.length v)) (Z.of_nat (List.length out)));
    [lia|done].
Qed.
End array_at.

(** ** Laws of [array_set] and [array_get] *)

Lemma world_3x4_allocated : allocated 3 4 world_3x4.
Proof. exists 1%positive, (zeros 12). by vm_compute. Qed.

(** X1 (a write touches one element).  On an allocated instance, writing
    element [i] does not change what [array_get] returns for any other
    in-range index [j]. *)
Theorem set_leaves_other_elements L S w i j (v out : bytes) :
  allocated L S w → 0 <= i < L → 0 <= j < L → i ≠ j →
  Z.of_nat (List.length v) = S → Z.of_nat (List.length out) = S →
  ∃ w' r,
    array_set present i (Some v) S w = Returns (S_OK, tt) w' ∧
    array_get present j (Some out) S w = Returns (S_OK, Some r) w ∧
    array_get present j (Some out) S w' = Returns (S_OK, Some r) w'.
Proof.
  intros (b & bs & Hinst & Hb & Hlen & HL & HS & Hfit) Hi Hj Hij Hv Hout.
  destruct (element_in_storage L S bs i Hlen HS Hi) as [Hilo Hihi].
  destruct (element_in_storage L S bs j Hlen HS Hj) as [Hjlo Hjhi].
  assert (∃ bs', write_at bs (i * S) v = Some bs') as [bs' Hw]
    by (eexists; apply write_at_Some; lia).
  destruct (read_at_is_Some bs (j * S) S) as (r & Hr & Hrlen); [lia..|].
  exists (mkWorld (inst w) (<[b := bs']> (heap w))), r.
  rewrite (array_set_at L S w b bs), (read_at_exact v S), Hw by done.
  split; [done|].
  rewrite (array_get_at L S w b bs), Hr, write_at_whole by (done || lia).
  split; [done|].
  rewrite (array_get_at L S _ b bs'); [|done|apply lookup_insert_eq|done..].
  rewrite (read_at_write_at_disjoint bs (i * S) v bs'), Hr, write_at_whole;
    [done|lia|done|lia..|].
  rewrite Hv. destruct (elements_disjoint S i j HS Hij); lia.
Qed.

Lemma set_leaves_other_elements_witness :
  ∃ w' r,
    array_set present 0 (Some [x01; x02; x03; x04]) 4 world_3x4 = Returns (S_OK, tt) w' ∧
    array_get present 2 (Some (zeros 4)) 4 world_3x4 = Returns (S_OK, Some r) world_3x4 ∧
    array_get present 2 (Some (zeros 4)) 4 w' = Returns (S_OK, Some r) w'.
Proof.
  apply (set_leaves_other_elements 3 4 world_3x4 0 2 [x01; x02; x03; x04] (zeros 4));
    [exact world_3x4_allocated | lia | lia | lia | reflexivity | reflexivity].
Defined.

(** X2 (the last write wins).  On an allocated instance, two writes of
    [S]-byte values to the same in-range index leave exactly the world
    that the second write alone leaves, and return [S_OK]. *)
Theorem set_set L S w i (v1 v2 : bytes) :
  allocated L S w → 0 <= i < L →
  Z.of_nat (List.length v1) = S → Z.of_nat (List.length v2) = S →
  (array_set present i (Some v1) S ;; array_set present i (Some v2) S) w
    = array_set present i (Some v2) S w ∧
  status_of (array_set present i (Some v2) S w) = Some S_OK.
Proof.
  intros (b & bs & Hinst & Hb & Hlen & HL & HS & Hfit) Hi Hv1 Hv2.
  destruct (element_in_storage L S bs i Hlen HS Hi) as [Hilo Hihi].
  assert (∃ bs1, write_at bs (i * S) v1 = Some bs1) as [bs1 Hw1]
    by (eexists; apply write_at_Some; lia).
  assert (∃ bs2, write_at bs (i * S) v2 = Some bs2) as [bs2 Hw2]
    by (eexists; apply write_at_Some; lia).
  rewrite (array_set_at L S w b bs i (Some v2)), (read_at_exact v2 S), Hw2 by done.
  split; [|done].
  erewrite bind_Returns;
    [|by rewrite (array_set_at L S w b bs), (read_at_exact v1 S), Hw1].
  rewrite (array_set_at L S _ b bs1); [|done|apply lookup_insert_eq|done..].
  rewrite (read_at_exact v2 S) by done.
  rewrite (write_at_write_at bs (i * S) v1 bs1 v2), Hw2 by (done || lia).
  simpl_world. by rewrite insert_insert_eq.
Qed.

Lemma set_set_witness :
  (array_set present 1 (Some [x01; x02; x03; x04]) 4 ;;
   array_set present 1 (Some [x05; x06; x07; x08]) 4) world_3x4
    = array_set present 1 (Some [x05; x06; x07; x08]) 4 world_3x4 ∧
  status_of (array_set present 1 (Some [x05; x06; x07; x08]) 4 world_3x4) = Some S_OK.
Proof.
  apply (set_set 3 4 world_3x4 1 [x01; x02; x03; x04] [x05; x06; x07; x08]);
    [exact world_3x4_allocated | lia | reflexivity | reflexivity].
Defined.

(** X3 (writing back what was read).  On an allocated instance, reading
    an in-range element and writing the bytes read to the same index
    returns [S_OK] and leaves the world exactly as it was. *)
Theorem get_set L S w i (out : bytes) :
  allocated L S w → 0 <= i < L → Z.of_nat (List.length out) = S →
  ∃ v, array_get present i (Some out) S w = Returns (S_OK, Some v) w ∧
       array_set present i (Some v) S w = Returns (S_OK, tt) w.
Proof.
  intros (b & bs & Hinst & Hb & Hlen & HL & HS & Hfit) Hi Hout.
  destruct (element_in_storage L S bs i Hlen HS Hi) as [Hilo Hihi].
  destruct (read_at_is_Some bs (i * S) S) as (v & Hr & Hvlen); [lia..|].
  exists v.
  rewrite (array_get_at L S w b bs), Hr, write_at_whole by (done || lia).
  split; [done|].
  rewrite (array_set_at L S w b bs), (read_at_exact v S) by done.
  rewrite (write_at_read_at bs (i * S) S v Hr), insert_id by done.
  by destruct w.
Qed.

Lemma get_set_witness :
  ∃ v, array_get present 1 (Some (zeros 4)) 4 world_3x4 = Returns (S_OK, Some v) world_3x4 ∧
       array_set present 1 (Some v) 4 world_3x4 = Returns (S_OK, tt) world_3x4.
Proof.
  apply (get_set 3 4 world_3x4 1 (zeros 4));
    [exact world_3x4_allocated | lia | reflexivity].
Defined.

(** X4 (writes to different elements commute).  On an allocated instance,
    writes to two different in-range indices leave the same world in
    either order. *)
Theorem set_commute L S w i j (v u : bytes) :
  allocated L S w → 0 <= i < L → 0 <= j < L → i ≠ j →
  Z.of_nat (List.length v) = S → Z.of_nat (List.length u) = S →
  (array_set present i (Some v) S ;; array_set present j (Some u) S) w
    = (array_set present j (Some u) S ;; array_set present i (Some v) S) w ∧
  status_of ((array_set present i (Some v) S ;; array_set present j (Some u) S) w)
    = Some S_OK.
Proof.
  intros (b & bs & Hinst & Hb & Hlen & HL & HS & Hfit) Hi Hj Hij Hv Hu.
  destruct (element_in_storage L S bs i Hlen HS Hi) as [Hilo Hihi].
  destruct (element_in_storage L S bs j Hlen HS Hj) as [Hjlo Hjhi].
  assert (∃ bs1, write_at bs (i * S) v = Some bs1) as [bs1 Hw1]
    by (eexists; apply write_at_Some; lia).
  assert (∃ bs2, write_at bs (j * S) u = Some bs2) as [bs2 Hw2]
    by (eexists; apply write_at_Some; lia).
  destruct (write_at_commute bs (i * S) v (j * S) u bs1 bs2 Hw1 Hw2)
    as (bs12 & Hw12 & Hw21);
    [rewrite Hv, Hu; apply (elements_disjoint S i j HS Hij)|].
  erewrite !bind_Returns; cycle 1.
  { by rewrite (array_set_at L S w b bs), (read_at_exact u S), Hw2. }
  { by rewrite (array_set_at L S w b bs), (read_at_exact v S), Hw1. }
  rewrite (array_set_at L S _ b bs1); [|done|apply lookup_insert_eq|done..].
  rewrite (array_set_at L S _ b bs2); [|done|apply lookup_insert_eq|done..].
  rewrite (read_at_exact u S), (read_at_exact v S), Hw12, Hw21 by done.
  simpl_world. by rewrite !insert_insert_eq.
Qed.

Lemma set_commute_witness :
  (array_set present 0 (Some [x01; x02; x03; x04]) 4 ;;
   array_set present 2 (Some [x05; x06; x07; x08]) 4) world_3x4
    = (array_set present 2 (Some [x05; x06; x07; x08]) 4 ;;
       array_set present 0 (Some [x01; x02; x03; x04]) 4) world_3x4 ∧
  status_of ((array_set present 0 (Some [x01; x02; x03; x04]) 4 ;;
              array_set present 2 (Some [x05; x06; x07; x08]) 4) world_3x4)
    = Some S_OK.
Proof.
  apply (set_commute 3 4 world_3x4 0 2 [x01; x02; x03; x04] [x05; x06; x07; x08]);
    [exact world_3x4_allocated | lia | lia | lia | reflexivity | reflexivity].
Defined.

(** ** Memory safety *)

(** X5 (no access outside the storage).  On an allocated instance, for
    every index and every [value_size], [array_set] from a source of at
    least [value_size] bytes and [array_get] into a destination of at
    least [value_size] bytes always return a status: no access leaves the
    storage or the caller's buffer.  [array_set] keeps the instance
    allocated with the same fields and the same live blocks, and changes
    no block but the storage; [array_get] changes nothing. *)
Theorem access_is_memory_safe L S w i vs (src out : bytes) :
  allocated L S w → 0 <= i →
  vs <= Z.of_nat (List.length src) → vs <= Z.of_nat (List.length out) →
  (∃ st w',
     array_set present i (Some src) vs w = Returns (st, tt) w' ∧
     allocated L S w' ∧ inst w' = inst w ∧
     dom (heap w') = dom (heap w) ∧
     ∀ b', head (inst w) ≠ Ptr b' 0 → heap w' !! b' = heap w !! b') ∧
  (∃ st r, array_get present i (Some out) vs w = Returns (st, r) w).
Proof.
  intros Halloc Hi Hsrc Hout.
  pose proof Halloc as (b & bs & Hinst & Hb & Hlen & HL & HS & Hfit).
  assert (length (inst w) = L) as HwL by (by rewrite Hinst).
  assert (elem_size (inst w) = S) as HwS by (by rewrite Hinst).
  destruct (Z_lt_ge_dec i L) as [HiL|HiL]; cycle 1.
  { rewrite array_set_out_of_range, array_get_out_of_range by lia.
    split; [by eexists _, _|by eexists _, _]. }
  destruct (Z.eq_dec vs S) as [->|Hvs]; cycle 1.
  { rewrite array_set_size_mismatch, array_get_size_mismatch by (lia || congruence).
    split; [by eexists _, _|by eexists _, _]. }
  destruct (element_in_storage L S bs i Hlen HS ltac:(lia)) as [Hilo Hihi].
  split.
  - destruct (read_at_prefix src S ltac:(lia)) as (v & Hr & Hv).
    assert (∃ bs', write_at bs (i * S) v = Some bs') as [bs' Hw]
      by (eexists; apply write_at_Some; lia).
    rewrite (array_set_at L S w b bs), Hr, Hw by (done || lia).
    eexists _, _. split; [done|]. simpl_world. repeat split.
    + exists b, bs'. simpl_world. rewrite lookup_insert_eq.
      rewrite (write_at_length _ _ _ _ Hw). done.
    + apply dom_insert_lookup_L. by eexists.
    + intros b' Hb'. apply lookup_insert_ne. intros <-. apply Hb'. by rewrite Hinst.
  - destruct (read_at_is_Some bs (i * S) S) as (v & Hr & Hv); [lia..|].
    rewrite (array_get_at L S w b bs), Hr, write_at_front by (done || lia).
    by eexists _, _.
Qed.

Lemma access_is_memory_safe_witness :
  (∃ st w',
     array_set present 7 (Some (zeros 9)) 8 world_3x4 = Returns (st, tt) w' ∧
     allocated 3 4 w' ∧ inst w' = inst world_3x4 ∧
     dom (heap w') = dom (heap world_3x4) ∧
     ∀ b', head (inst world_3x4) ≠ Ptr b' 0 → heap w' !! b' = heap world_3x4 !! b') ∧
  (∃ st r, array_get present 7 (Some (zeros 8)) 8 world_3x4 = Returns (st, r) world_3x4).
Proof.
  apply (access_is_memory_safe 3 4 world_3x4 7 8 (zeros 9) (zeros 8));
    [exact world_3x4_allocated | lia | vm_compute; discriminate | vm_compute; discriminate].
Defined.

(** X6 (the source of [array_set] is not checked).  Unlike the
    destination of [array_get], the source pointer of [array_set] is never
    tested: once index and size have passed, a null source, or one with
    fewer than [elem_size] bytes, is handed to [memcpy], which is
    undefined. *)
Theorem set_bad_source_undefined L S w i :
  allocated L S w → 0 <= i < L →
  array_set present i None S w = Undefined ∧
  ∀ src : bytes, Z.of_nat (List.length src) < S →
    array_set present i (Some src) S w = Undefined.
Proof.
  intros (b & bs & Hinst & Hb & Hlen & HL & HS & Hfit) Hi.
  split; [by rewrite (array_set_at L S w b bs)|]. intros src Hsrc.
  rewrite (array_set_at L S w b bs) by done.
  unfold read_at. destruct (Z.leb_spec (0 + S) (Z.of_nat (List.length src))); [lia|].
  by rewrite andb_false_r.
Qed.

Lemma set_bad_source_undefined_witness :
  array_set present 1 None 4 world_3x4 = Undefined ∧
  ∀ src : bytes, Z.of_nat (List.length src) < 4 →
    array_set present 1 (Some src) 4 world_3x4 = Undefined.
Proof.
  apply (set_bad_source_undefined 3 4 world_3x4 1);
    [exact world_3x4_allocated | lia].
Defined.

(** X7 (what [array_get] does to the destination).  On an allocated
    instance with an in-range index [i] and the matching size, the element
    is the [elem_size] bytes at offset [i * elem_size] of the storage
    block; [array_get] overwrites the first [elem_size] bytes of the
    destination with these bytes and keeps the bytes behind them; a
    destination with fewer than [elem_size] bytes is overrun, which is
    undefined. *)
Theorem get_destination L S w i :
  allocated L S w → 0 <= i < L →
  ∃ b (bs v : bytes),
    head (inst w) = Ptr b 0 ∧ heap w !! b = Some bs ∧
    read_at bs (i * S) S = Some v ∧
    v = take (Z.to_nat S) (drop (Z.to_nat (i * S)) bs) ∧
    Z.of_nat (List.length v) = S ∧
    ∀ out : bytes,
      (S <= Z.of_nat (List.length out) →
         array_get present i (Some out) S w =
           Returns (S_OK, Some (v ++ drop (Z.to_nat S) out)) w) ∧
      (Z.of_nat (List.length out) < S →
         array_get present i (Some out) S w = Undefined).
Proof.
  intros (b & bs & Hinst & Hb & Hlen & HL & HS & Hfit) Hi.
  destruct (element_in_storage L S bs i Hlen HS Hi) as [Hilo Hihi].
  pose proof (read_at_Some bs (i * S) S ltac:(lia) ltac:(lia) ltac:(lia)) as Hr.
  set (v := take (Z.to_nat S) (drop (Z.to_nat (i * S)) bs)) in *.
  assert (Z.of_nat (List.length v) = S) as Hv by (by eapply read_at_length).
  exists b, bs, v. rewrite Hinst. repeat split; try done.
  - rewrite (array_get_at L S w b bs), Hr by done. intros Hout.
    rewrite write_at_front by lia.
    by replace (Z.to_nat S) with (List.length v) by lia.
  - rewrite (array_get_at L S w b bs), Hr by done. intros Hout.
    by rewrite write_at_too_short by lia.
Qed.

Lemma get_destination_witness :
  ∃ b (bs v : bytes),
    head (inst world_3x4_written) = Ptr b 0 ∧ heap world_3x4_written !! b = Some bs ∧
    read_at bs (1 * 4) 4 = Some v ∧
    v = take (Z.to_nat 4) (drop (Z.to_nat (1 * 4)) bs) ∧
    Z.of_nat (List.length v) = 4 ∧
    ∀ out : bytes,
      (4 <= Z.of_nat (List.length out) →
         array_get present 1 (Some out) 4 world_3x4_written =
           Returns (S_OK, Some (v ++ drop (Z.to_nat 4) out)) world_3x4_written) ∧
      (Z.of_nat (List.length out) < 4 →
         array_get present 1 (Some out) 4 world_3x4_written = Undefined).
Proof.
  apply (get_destination 3 4 world_3x4_written 1); [|lia].
  exists 1%positive,
    [x00; x00; x00; x00; x2a; x00; x00; x00; x00; x00; x00; x00].
  vm_compute. repeat split; congruence.
Defined.

(** The element 42 read into a destination of six bytes. *)
Example get_destination_run :
  array_get present 1 (Some [xff; xff; xff; xff; xff; xff]) 4 world_3x4_written =
    Returns (S_OK, Some [x2a; x00; x00; x00; xff; xff]) world_3x4_written.
Proof. by vm_compute. Qed.

(** X8 (nothing to use after release).  After [array_free] on an instance
    whose handle is null or live, every [array_set] and [array_get] with a
    present destination returns [S_ERR_OUT_OF_RANGE] for every index and
    size and changes nothing: the released storage is never accessed. *)
Theorem access_after_free w :
  storage_valid w →
  ∃ w', array_free present w = Returns (S_OK, tt) w' ∧
        ∀ i vin (out : bytes) vs, 0 <= i →
          array_set present i vin vs w' = Returns (S_ERR_OUT_OF_RANGE, tt) w' ∧
          array_get present i (Some out) vs w' =
            Returns (S_ERR_OUT_OF_RANGE, Some out) w'.
Proof.
  intros Hvalid. destruct (free_idempotent_gen w Hvalid) as (w' & Hfree & Hinst & _).
  exists w'. split; [done|]. intros i vin out vs Hi.
  assert (i >= length (inst w')) by (rewrite Hinst; simpl; lia).
  by rewrite array_set_out_of_range, array_get_out_of_range.
Qed.

Lemma access_after_free_witness :
  ∃ w', array_free present world_3x4 = Returns (S_OK, tt) w' ∧
        ∀ i vin (out : bytes) vs, 0 <= i →
          array_set present i vin vs w' = Returns (S_ERR_OUT_OF_RANGE, tt) w' ∧
          array_get present i (Some out) vs w' =
            Returns (S_ERR_OUT_OF_RANGE, Some out) w'.
Proof.
  apply (access_after_free world_3x4).
  right. exists 1%positive. split; [reflexivity|].
  exists (zeros 12). vm_compute. reflexivity.
Defined.

(** ** Lengths *)

(** X9 (the length check is exact).  For [elem_size > 0] on a present
    instance, [array_init] returns [S_ERR_OUT_OF_RANGE] exactly when
    [length] is 0 or [length * elem_size] exceeds [SIZE_MAX]: comparing
    with the quotient [SIZE_MAX / elem_size] rejects no request whose byte
    count fits. *)
Theorem init_rejects_exactly_overflow L S ok w :
  0 < S → 0 <= L →
  (status_of (array_init present L S ok w) = Some S_ERR_OUT_OF_RANGE
     ↔ L = 0 ∨ SIZE_MAX < L * S).
Proof.
  intros HS HL. pose proof SIZE_MAX_pos as HM.
  pose proof (Z.mul_div_le SIZE_MAX S HS) as Hlo.
  pose proof (Z.mul_succ_div_gt SIZE_MAX S HS) as Hhi.
  split.
  - intros Hst. destruct (Z.eq_dec L 0) as [|HL0]; [by left|right].
    destruct (Z_lt_le_dec SIZE_MAX (L * S)) as [|Hfit]; [done|].
    rewrite array_init_in_range in Hst; [by destruct ok|lia..|nia].
  - intros [->|Hover]; [by rewrite array_init_out_of_range by auto|].
    rewrite array_init_out_of_range; [done|lia|right; nia].
Qed.

Lemma init_rejects_exactly_overflow_witness :
  status_of (array_init present (2 ^ 62) 4 true empty_world) = Some S_ERR_OUT_OF_RANGE
    ↔ 2 ^ 62 = 0 ∨ SIZE_MAX < 2 ^ 62 * 4.
Proof.
  apply (init_rejects_exactly_overflow (2 ^ 62) 4 true empty_world); lia.
Defined.

(** X10 ([array_len] gives the bound of the valid indices).  On an
    allocated instance, [array_len] returns the number [n] such that
    [array_get] with the matching size succeeds exactly for the indices
    below [n]. *)
Theorem len_bounds_valid_indices L S w i (out : bytes) :
  allocated L S w → 0 <= i → Z.of_nat (List.length out) = S →
  ∃ n, array_len present (Some 0) w = Returns (S_OK, Some n) w ∧
       (status_of (array_get present i (Some out) S w) = Some S_OK ↔ i < n).
Proof.
  intros (b & bs & Hinst & Hb & Hlen & HL & HS & Hfit) Hi Hout.
  exists L. rewrite array_len_present, Hinst. split; [done|].
  destruct (Z_lt_ge_dec i L) as [HiL|HiL].
  - destruct (element_in_storage L S bs i Hlen HS ltac:(lia)) as [Hilo Hihi].
    destruct (read_at_is_Some bs (i * S) S) as (v & Hr & Hv); [lia..|].
    rewrite (array_get_at L S w b bs), Hr, write_at_whole by (done || lia).
    done.
  - rewrite array_get_out_of_range by (rewrite Hinst; simpl; lia).
    split; [done|lia].
Qed.

Lemma len_bounds_valid_indices_witness :
  ∃ n, array_len present (Some 0) world_3x4 = Returns (S_OK, Some n) world_3x4 ∧
       (status_of (array_get present 3 (Some (zeros 4)) 4 world_3x4) = Some S_OK ↔ 3 < n).
Proof.
  apply (len_bounds_valid_indices 3 4 world_3x4 3 (zeros 4));
    [exact world_3x4_allocated | lia | reflexivity].
Defined.

(** X11 (status codes).  The numeric codes of [status_t] are pairwise
    different, and [S_OK] is the only status with code 0, so a caller can
    test a status against zero. *)
Theorem status_code_injective :
  (∀ s1 s2, status_code s1 = status_code s2 → s1 = s2) ∧
  (∀ s, status_code s = 0 ↔ s = S_OK).
Proof.
  split.
  - intros [] []; simpl; intros; done.
  - intros []; simpl; split; done.
Qed.

(** ** The array as a function from indices to elements *)

Section representation.
Implicit Types (L S i : Z) (w : world) (b : block) (f g : Z → bytes).

Lemma represents_intro (h0 : gmap block bytes) b L S (bs : bytes) w :
  inst w = mkArray (Ptr b 0) L S → h0 !! b = None →
  0 < L → 0 < S → L * S <= SIZE_MAX →
  heap w = <[b := bs]> h0 → Z.of_nat (List.length bs) = L * S →
  represents h0 b L S (fun k => default [] (read_at bs (k * S) S)) w.
Proof.
  intros Hinst Hfresh HL HS Hfit Hheap Hlen.
  repeat split; try done. exists bs. repeat split; try done.
  intros k Hk. destruct (element_in_storage L S bs k Hlen HS Hk).
  destruct (read_at_is_Some bs (k * S) S) as (v & -> & _); [lia..|done].
Qed.

Lemma represents_ext (h0 : gmap block bytes) b L S f g w :
  (∀ k, 0 <= k < L → f k = g k) →
  represents h0 b L S f w → represents h0 b L S g w.
Proof.
  intros Hfg (Hinst & Hfresh & HL & HS & Hfit & bs & Hheap & Hlen & Hf).
  repeat split; try done. exists bs. repeat split; try done.
  intros k Hk. rewrite <- Hfg by done. by apply Hf.
Qed.

Lemma represents_element_length (h0 : gmap block bytes) b L S f w k :
  represents h0 b L S f w → 0 <= k < L → Z.of_nat (List.length (f k)) = S.
Proof.
  intros (_ & _ & _ & _ & _ & bs & _ & _ & Hf) Hk.
  by eapply read_at_length, Hf.
Qed.

(** A successful [array_init] gives the array of all-zero elements, in a
    block that was not live. *)
Lemma represents_init L S w :
  0 < L → 0 < S → L <= SIZE_MAX / S →
  ∃ w', array_init present L S true w = Returns (S_OK, tt) w' ∧
        represents (heap w) (fresh_block (heap w)) L S (fun _ => zeros S) w'.
Proof.
  intros HL HS Hle. eexists. split; [by apply array_init_ok|].
  destruct (length_check_no_overflow L S HS HL Hle) as [_ Hfit].
  repeat split; try done; [apply fresh_block_not_live|].
  exists (zeros (L * S)). repeat split; try done.
  - unfold zeros. rewrite length_replicate. lia.
  - intros k Hk. apply read_at_zeros; nia.
Qed.

Lemma represents_get (h0 : gmap block bytes) b L S f w i (out : bytes) :
  represents h0 b L S f w → 0 <= i < L → Z.of_nat (List.length out) = S →
  array_get present i (Some out) S w = Returns (S_OK, Some (f i)) w.
Proof.
  intros (Hinst & Hfresh & HL & HS & Hfit & bs & Hheap & Hlen & Hf) Hi Hout.
  assert (heap w !! b = Some bs) as Hb by (by rewrite Hheap, lookup_insert_eq).
  rewrite (array_get_at L S w b bs), (Hf i Hi) by done.
  rewrite write_at_whole; [done|].
  pose proof (read_at_length _ _ _ _ (Hf i Hi)). lia.
Qed.

Lemma represents_set (h0 : gmap block bytes) b L S f w i (v : bytes) :
  represents h0 b L S f w → 0 <= i < L → Z.of_nat (List.length v) = S →
  ∃ w', array_set present i (Some v) S w = Returns (S_OK, tt) w' ∧
        represents h0 b L S (update f i v) w'.
Proof.
  intros (Hinst & Hfresh & HL & HS & Hfit & bs & Hheap & Hlen & Hf) Hi Hv.
  destruct (element_in_storage L S bs i Hlen HS Hi) as [Hilo Hihi].
  assert (∃ bs', write_at bs (i * S) v = Some bs') as [bs' Hw]
    by (eexists; apply write_at_Some; lia).
  assert (heap w !! b = Some bs) as Hb by (by rewrite Hheap, lookup_insert_eq).
  eexists. split.
  { by rewrite (array_set_at L S w b bs), (read_at_exact v S), Hw. }
  repeat split; try done. exists bs'. simpl_world. repeat split.
  - by rewrite Hheap, insert_insert_eq.
  - by rewrite (write_at_length _ _ _ _ Hw).
  - intros k Hk. unfold update. case_decide as Hki.
    + subst k. rewrite <- Hv at 2. by eapply read_at_write_at.
    + rewrite (read_at_write_at_disjoint bs (i * S) v bs'), Hf; [done..|nia|lia|].
      rewrite Hv. destruct (elements_disjoint S i k HS); [done|lia..].
Qed.

(** A write that returns at all, whatever its status, keeps an array. *)
Lemma represents_any_set (h0 : gmap block bytes) b L S f w i vin vs st w' :
  represents h0 b L S f w →
  array_set present i vin vs w = Returns (st, tt) w' →
  ∃ g, represents h0 b L S g w'.
Proof.
  intros Hrep Hset.
  destruct (array_set_all_or_nothing _ _ _ _ _ _ _ Hset)
    as [[_ ->] | (_ & _ & b' & o & bs & v & bs' & src & Hhd & Hb & _ & _ & Hw & ->)];
    [by exists f|].
  destruct Hrep as (Hinst & Hfresh & HL & HS & Hfit & bs0 & Hheap & Hlen & _).
  rewrite Hinst in Hhd. injection Hhd as <- <-.
  rewrite Hheap, lookup_insert_eq in Hb. injection Hb as <-.
  eexists. apply (represents_intro h0 b L S bs'); try done.
  - simpl_world. by rewrite Hheap, insert_insert_eq.
  - by rewrite (write_at_length _ _ _ _ Hw).
Qed.

(** [array_free] gives back the block and leaves the rest of the heap. *)
Lemma represents_free (h0 : gmap block bytes) b L S f w :
  represents h0 b L S f w →
  array_free present w = Returns (S_OK, tt) (mkWorld (mkArray NULL 0 0) h0).
Proof.
  intros (Hinst & Hfresh & _ & _ & _ & bs & Hheap & _).
  rewrite (array_free_live w b); [|by rewrite Hinst|by rewrite Hheap, lookup_insert_eq].
  by rewrite Hheap, delete_insert_id.
Qed.

Lemma represents_fields (h0 : gmap block bytes) b L S f w :
  represents h0 b L S f w → head (inst w) = Ptr b 0 ∧ length (inst w) = L.
Proof. intros (-> & _). done. Qed.

Lemma initialized_from_represents w0 L S w :
  0 <= L → 0 <= S → initialized_from w0 L S w →
  ∃ b f, represents (heap w0) b L S f w.
Proof.
  intros HL HS. induction 1 as [ok w Hinit | w i v vs st w' _ (b & f & IH) Hset].
  - assert (S ≠ 0) by (intros ->; by rewrite array_init_zero_elem_size in Hinit).
    apply array_init_ok_inv in Hinit as (HL' & Hle & -> & ->); [|lia..].
    destruct (represents_init L S w0) as (w' & Hinit' & Hrep); [lia..|].
    rewrite array_init_ok in Hinit' by lia. injection Hinit' as <-. eauto.
  - destruct (represents_any_set _ _ _ _ _ _ _ _ _ _ _ IH Hset) as [g Hg]. eauto.
Qed.
End representation.

(** X12 (an array's life leaves the heap as it found it).  After a
    successful [array_init] in a world [w0] and any number of [array_set]
    calls that return, [array_free] returns [S_OK] and leaves the empty
    instance and exactly the heap of [w0]: the storage is released and no
    other block was allocated, released or changed. *)
Theorem lifetime_restores_heap w0 L S w :
  0 <= L → 0 <= S → initialized_from w0 L S w →
  array_free present w = Returns (S_OK, tt) (mkWorld (mkArray NULL 0 0) (heap w0)).
Proof.
  intros HL HS Hlife.
  destruct (initialized_from_represents w0 L S w HL HS Hlife) as (b & f & Hrep).
  by eapply represents_free.
Qed.

Lemma lifetime_restores_heap_witness :
  array_free present world_3x4 =
    Returns (S_OK, tt) (mkWorld (mkArray NULL 0 0) (heap empty_world)).
Proof.
  apply (lifetime_restores_heap empty_world 3 4 world_3x4); [lia | lia |].
  apply (initialized_from_init empty_world 3 4 true). vm_compute. reflexivity.
Defined.

(** ** The test programs *)

Section int_bytes.
Lemma Z_of_byte_of_Z z : Z_of_byte (byte_of_Z z) = z mod 256.
Proof.
  unfold Z_of_byte, byte_of_Z.
  pose proof (Z.mod_pos_bound z 256 ltac:(lia)) as Hz.
  destruct (Byte.of_N (Z.to_N (z mod 256))) as [c|] eqn:Hc.
  - apply Byte.to_of_N in Hc. simpl. rewrite Hc. lia.
  - apply Byte.of_N_None_iff in Hc. lia.
Qed.

Lemma encode_int_length z : Z.of_nat (List.length (encode_int z)) = int_elem_size.
Proof. reflexivity. Qed.

(** An [int] written to memory and read back is the same [int]. *)
Lemma decode_encode_int z :
  - 2 ^ 31 <= z < 2 ^ 31 → decode_int (encode_int z) = z.
Proof.
  intros Hz. unfold decode_int, encode_int. rewrite !Z_of_byte_of_Z.
  change (2 ^ 16) with (2 ^ 8 * 2 ^ 8).
  change (2 ^ 24) with (2 ^ 8 * 2 ^ 8 * 2 ^ 8).
  rewrite <- !Z.div_div by lia.
  change (2 ^ 8) with 256 in *. change (2 ^ 31) with 2147483648 in *.
  change (2 ^ 32) with 4294967296.
  pose proof (Z.div_mod z 256 ltac:(lia)).
  pose proof (Z.mod_pos_bound z 256 ltac:(lia)).
  pose proof (Z.div_mod (z / 256) 256 ltac:(lia)).
  pose proof (Z.mod_pos_bound (z / 256) 256 ltac:(lia)).
  pose proof (Z.div_mod (z / 256 / 256) 256 ltac:(lia)).
  pose proof (Z.mod_pos_bound (z / 256 / 256) 256 ltac:(lia)).
  pose proof (Z.div_mod (z / 256 / 256 / 256) 256 ltac:(lia)).
  pose proof (Z.mod_pos_bound (z / 256 / 256 / 256) 256 ltac:(lia)).
  destruct (Z.ltb_spec
    (z mod 256 + 256 * ((z / 256) mod 256)
     + 256 * 256 * ((z / 256 / 256) mod 256)
     + 256 * 256 * 256 * ((z / 256 / 256 / 256) mod 256)) 2147483648); lia.
Qed.
End int_bytes.

Section test_steps.
Implicit Types (k : M test_result) (w : world).

Lemma ASSERT_EQ_same {A} `{EqDecision A} (a : A) k : ASSERT_EQ a a k = k.
Proof. unfold ASSERT_EQ, ASSERT. by rewrite bool_decide_true. Qed.

Lemma ASSERT_true k : ASSERT true k = k.
Proof. reflexivity. Qed.

(** The rule of the counting loop: an invariant that every iteration
    carries one step further holds after the last one. *)
Lemma for_loop_rule (I : Z → world → Prop) body k n i w :
  I i w →
  (∀ j wj k', i <= j < i + Z.of_nat n → I j wj →
     ∃ wj', I (j + 1) wj' ∧ body j k' wj = k' wj') →
  ∃ w', I (i + Z.of_nat n) w' ∧ for_loop n i body k w = k w'.
Proof.
  revert i w. induction n as [|n IH]; intros i w Hi Hbody.
  - exists w. by rewrite Z.add_0_r.
  - destruct (Hbody i w (for_loop n (i + 1) body k) ltac:(lia) Hi) as (w1 & Hi1 & Hstep).
    destruct (IH (i + 1) w1 Hi1) as (w' & Hi' & Hloop).
    { intros j wj k' Hj. apply Hbody. lia. }
    exists w'. split.
    + by replace (i + Z.of_nat (Datatypes.S n)) with (i + 1 + Z.of_nat n) by lia.
    + simpl. by rewrite Hstep.
Qed.
End test_steps.

Ltac step_with H := erewrite (bind_Returns _ _ _ _ _ H); cbn [fst snd].
Ltac step_field := erewrite bind_Returns by reflexivity; simpl_world.
Ltac pass_assert := rewrite ?ASSERT_EQ_same, ?ASSERT_true.

(** [loop_inv I] runs the loop at the head of the goal with invariant [I]:
    the invariant at entry, its preservation by the body, then the rest of
    the test from a world satisfying the invariant at exit. *)
Ltac loop_inv I :=
  lazymatch goal with
  | |- for_loop ?n ?i ?body ?k ?w = _ =>
      let w' := fresh "w" in
      let Hinv := fresh "Hinv" in
      let Hloop := fresh "Hloop" in
      destruct (for_loop_rule I body k n i w) as (w' & Hinv & Hloop);
      [ | | rewrite Hloop; clear Hloop; revert w' Hinv ]
  end.

Section tests_pass.
Implicit Types (w : world).

Lemma int_elem_size_ok L : 0 < L <= 100 → L <= SIZE_MAX / int_elem_size.
Proof. intros. change (SIZE_MAX / int_elem_size) with 4611686018427387903. lia. Qed.

Lemma test_array_init_and_free_passes w :
  test_array_init_and_free true w =
    Returns PASS (mkWorld (mkArray NULL 0 0) (heap w)).
Proof.
  destruct (represents_init 10 int_elem_size w) as (w1 & Hinit & Hrep);
    [done|done|by apply int_elem_size_ok|].
  destruct (represents_fields _ _ _ _ _ _ Hrep) as [Hhead Hlen].
  unfold test_array_init_and_free.
  step_with Hinit. pass_assert.
  step_field. rewrite Hhead, bool_decide_false by done. pass_assert.
  step_field. rewrite Hlen. pass_assert.
  step_with (represents_free _ _ _ _ _ _ Hrep). pass_assert.
  step_field. pass_assert. step_field. pass_assert. done.
Qed.
Lemma test_array_init_invalid_inputs_passes ok w :
  test_array_init_invalid_inputs ok w = Returns PASS w.
Proof.
  unfold test_array_init_invalid_inputs.
  step_with (array_init_absent 10 int_elem_size ok w). pass_assert.
  step_with (array_init_out_of_range 0 int_elem_size ok w ltac:(done) ltac:(by left)).
  by pass_assert.
Qed.

Lemma test_array_set_and_get_passes w :
  test_array_set_and_get true w =
    Returns PASS (mkWorld (mkArray NULL 0 0) (heap w)).
Proof.
  destruct (represents_init 5 int_elem_size w) as (w1 & Hinit & Hrep);
    [done|done|by apply int_elem_size_ok|].
  destruct (represents_set _ _ _ _ _ _ 2 (encode_int 42) Hrep) as (w2 & Hset & Hrep2);
    [done|done|].
  pose proof (represents_get _ _ _ _ _ _ 2 (encode_int 0) Hrep2 ltac:(done) ltac:(done))
    as Hget.
  unfold test_array_set_and_get.
  step_with Hinit. step_with Hset. pass_assert.
  step_with Hget. pass_assert.
  by step_with (represents_free _ _ _ _ _ _ Hrep2).
Qed.

Lemma test_array_bounds_check_passes w :
  test_array_bounds_check true w =
    Returns PASS (mkWorld (mkArray NULL 0 0) (heap w)).
Proof.
  destruct (represents_init 3 int_elem_size w) as (w1 & Hinit & Hrep);
    [done|done|by apply int_elem_size_ok|].
  destruct (represents_fields _ _ _ _ _ _ Hrep) as [_ Hlen].
  unfold test_array_bounds_check.
  step_with Hinit.
  step_with (array_set_out_of_range 3 None int_elem_size w1 ltac:(lia)). pass_assert.
  step_with (array_get_null_destination 3 int_elem_size w1). pass_assert.
  step_with (array_get_absent 1 None int_elem_size w1). pass_assert.
  by step_with (represents_free _ _ _ _ _ _ Hrep).
Qed.

Lemma test_array_len_passes w :
  test_array_len true w =
    Returns PASS (mkWorld (mkArray NULL 0 0) (heap w)).
Proof.
  destruct (represents_init 7 int_elem_size w) as (w1 & Hinit & Hrep);
    [done|done|by apply int_elem_size_ok|].
  destruct (represents_fields _ _ _ _ _ _ Hrep) as [_ Hlen].
  unfold test_array_len.
  step_with Hinit.
  step_with (array_len_present 0 w1). rewrite Hlen. pass_assert.
  step_with (array_len_absent (Some 7) w1). pass_assert.
  step_with (array_len_null_destination w1). pass_assert.
  by step_with (represents_free _ _ _ _ _ _ Hrep).
Qed.

Lemma test_array_zero_values_passes w :
  test_array_zero_values true w =
    Returns PASS (mkWorld (mkArray NULL 0 0) (heap w)).
Proof.
  destruct (represents_init 10 int_elem_size w) as (w1 & Hinit & Hrep);
    [done|done|by apply int_elem_size_ok|].
  unfold test_array_zero_values.
  step_with Hinit. pass_assert.
  loop_inv (fun (_ : Z) wj => wj = w1); [done| |intros ? ->].
  { intros j wj k' Hj ->. exists w1. split; [done|].
    step_with (represents_get _ _ _ _ _ _ j (encode_int (-1)) Hrep ltac:(lia) ltac:(done)).
    by pass_assert. }
  step_with (represents_free _ _ _ _ _ _ Hrep). pass_assert.
  step_field. pass_assert. step_field. pass_assert. done.
Qed.
Lemma RUN_TEST_PASS (t k : M test_result) w w1 r w2 :
  t w = Returns PASS w1 → k w1 = Returns r w2 →
  RUN_TEST t k w = Returns r w2.
Proof.
  intros Ht Hk. unfold RUN_TEST.
  step_with Ht. by step_with Hk.
Qed.
End tests_pass.

(** X13 (the unit tests pass).  From every world, whatever the declared
    instance holds and whatever is on the heap, the suite [array_tests]
    (the six unit tests, run in the order of the file) returns [PASS]
    when the allocator succeeds, and leaves the heap as it found it. *)
Theorem array_tests_pass w :
  array_tests true w = Returns PASS (mkWorld (mkArray NULL 0 0) (heap w)).
Proof.
  unfold array_tests.
  eapply RUN_TEST_PASS; [apply test_array_init_and_free_passes|].
  eapply RUN_TEST_PASS; [apply test_array_init_invalid_inputs_passes|].
  eapply RUN_TEST_PASS; [apply test_array_set_and_get_passes|].
  eapply RUN_TEST_PASS; [apply test_array_bounds_check_passes|].
  eapply RUN_TEST_PASS; [apply test_array_len_passes|].
  eapply RUN_TEST_PASS; [apply test_array_zero_values_passes|].
  done.
Qed.

(** X14 (the integer simulation passes).  From every world,
    [test_array_int_simulation] returns [PASS] when the allocator
    succeeds: the 100 values written are the values read, the ten
    increments at indices 10 to 19 are seen and only they, and the heap is
    left as it was found. *)
Theorem test_array_int_simulation_passes w :
  test_array_int_simulation true w =
    Returns PASS (mkWorld (mkArray NULL 0 0) (heap w)).
Proof.
  destruct (represents_init 100 int_elem_size w) as (w1 & Hinit & Hrep);
    [done|done|by apply int_elem_size_ok|].
  unfold test_array_int_simulation. cbv zeta.
  step_with Hinit. pass_assert.
  set (h0 := heap w) in *. set (b := fresh_block h0) in *.
  (* filling the array with i * 2 *)
  loop_inv
    (fun j wj => represents h0 b 100 int_elem_size
       (fun k => if decide (k < j) then encode_int (k * 2) else zeros int_elem_size) wj);
    [ | |intros w2 Hrep2].
  { eapply represents_ext; [|exact Hrep]. intros k Hk. by rewrite decide_False by lia. }
  { intros j wj k' Hj Hrepj. cbn in Hj.
    destruct (represents_set _ _ _ _ _ _ j (encode_int (j * 2)) Hrepj)
      as (wj' & Hset & Hrepj'); [lia|done|].
    exists wj'. split.
    - eapply represents_ext; [|exact Hrepj']. intros k Hk. unfold update.
      repeat case_decide; subst; done || lia.
    - step_with Hset. by pass_assert. }
  (* verifying the values *)
  loop_inv (fun (_ : Z) wj => wj = w2); [done| |intros ? ->].
  { intros j wj k' Hj ->. cbn in Hj. exists w2. split; [done|].
    pose proof (represents_get _ _ _ _ _ _ j (encode_int 0) Hrep2 ltac:(lia) ltac:(done))
      as Hget.
    cbv beta in Hget. rewrite decide_True in Hget by lia.
    step_with Hget. pass_assert. cbn [int_val].
    rewrite decode_encode_int by lia. by pass_assert. }
  (* adding 1 to the values at index 10 to 19 *)
  loop_inv
    (fun j wj => represents h0 b 100 int_elem_size
       (fun k => if decide (10 <= k < j) then encode_int (k * 2 + 1)
                 else encode_int (k * 2)) wj);
    [ | |intros w3 Hrep3].
  { eapply represents_ext; [|exact Hrep2]. intros k Hk. cbv beta.
    rewrite decide_True, decide_False by lia. done. }
  { intros j wj k' Hj Hrepj. cbn in Hj.
    pose proof (represents_get _ _ _ _ _ _ j (encode_int 0) Hrepj ltac:(lia) ltac:(done))
      as Hget.
    cbv beta in Hget. rewrite decide_False in Hget by lia.
    destruct (represents_set _ _ _ _ _ _ j (encode_int (j * 2 + 1)) Hrepj)
      as (wj' & Hset & Hrepj'); [lia|done|].
    exists wj'. split.
    - eapply represents_ext; [|exact Hrepj']. intros k Hk. unfold update.
      repeat case_decide; subst; done || lia.
    - step_with Hget. pass_assert. cbn [int_val].
      rewrite decode_encode_int by lia.
      step_with Hset. by pass_assert. }
  (* confirming the updated values *)
  loop_inv (fun (_ : Z) wj => wj = w3); [done| |intros ? ->].
  { intros j wj k' Hj ->. cbn in Hj. exists w3. split; [done|].
    pose proof (represents_get _ _ _ _ _ _ j (encode_int 0) Hrep3 ltac:(lia) ltac:(done))
      as Hget.
    cbv beta in Hget. rewrite decide_True in Hget by lia.
    step_with Hget. pass_assert. cbn [int_val].
    rewrite decode_encode_int by lia. by pass_assert. }
  by step_with (represents_free _ _ _ _ _ _ Hrep3).
Qed.

(** X15 (the record simulation passes).  From every world and for every
    initial content of the three 12-byte destinations,
    [test_array_struct_simulation] returns [PASS] when the allocator
    succeeds: each of the three records read back has the fields of the
    record written at its index, and the heap is left as it was found. *)
Theorem test_array_struct_simulation_passes w (a2 b2 c2 : bytes) :
  Z.of_nat (List.length a2) = sizeof_Vec3 →
  Z.of_nat (List.length b2) = sizeof_Vec3 →
  Z.of_nat (List.length c2) = sizeof_Vec3 →
  test_array_struct_simulation true a2 b2 c2 w =
    Returns PASS (mkWorld (mkArray NULL 0 0) (heap w)).
Proof.
  intros Ha2 Hb2 Hc2.
  destruct (represents_init 3 sizeof_Vec3 w) as (w1 & Hinit & Hrep);
    [done|done|by vm_compute|].
  destruct (represents_set _ _ _ _ _ _ 0 (encode_Vec3 (mkVec3 1 2 3)) Hrep)
    as (wa & Hseta & Hrepa); [done|done|].
  destruct (represents_set _ _ _ _ _ _ 1 (encode_Vec3 (mkVec3 4 5 6)) Hrepa)
    as (wb & Hsetb & Hrepb); [done|done|].
  destruct (represents_set _ _ _ _ _ _ 2 (encode_Vec3 (mkVec3 7 8 9)) Hrepb)
    as (wc & Hsetc & Hrepc); [done|done|].
  unfold test_array_struct_simulation. cbv zeta.
  step_with Hinit.
  step_with Hseta. pass_assert. step_with Hsetb. pass_assert.
  step_with Hsetc. pass_assert.
  step_with (represents_get _ _ _ _ _ _ 0 a2 Hrepc ltac:(done) Ha2). pass_assert.
  step_with (represents_get _ _ _ _ _ _ 1 b2 Hrepc ltac:(done) Hb2). pass_assert.
  step_with (represents_get _ _ _ _ _ _ 2 c2 Hrepc ltac:(done) Hc2). pass_assert.
  by step_with (represents_free _ _ _ _ _ _ Hrepc).
Qed.

Lemma test_array_struct_simulation_passes_witness :
  test_array_struct_simulation true (zeros 12) (zeros 12) (zeros 12) uninitialized_world =
    Returns PASS (mkWorld (mkArray NULL 0 0) (heap uninitialized_world)).
Proof.
  apply (test_array_struct_simulation_passes uninitialized_world
           (zeros 12) (zeros 12) (zeros 12)); reflexivity.
Defined.
